(** * The 3-adic check of [hensel_lifting.py]: Hensel lifting of polynomial roots

    A shallow embedding of [hensel_lift], [check_irrational] and the script's
    driver, followed by the properties of the root lifter.  The integer
    checks of [verify_3adic.py] (the exhaustive root search, the valuation
    loop of the Minkowski check, the 3-adic constraint) and the summary
    selection of [validate_all.py] are embedded beside it.

    - Python integers (and sympy [Integer]s, which behave the same under
      [+ - * // %]) are [Z]; [%] and [//] are [Z.modulo] and [Z.div], which
      agree with Python's floor semantics for every non-zero divisor.
    - [p ** i] is [p ^ i]; the script raises [p] to exponents [i >= 1] only.
    - Python floats are Rocq's primitive binary64 floats.
    - An exception is [None] in the [option] monad; so is a run of
      [hensel_lift] that leaves the integers, which module [Sym] follows on
      sympy's rationals. *)

From Stdlib Require Import ZArith List Lia Bool.
From Stdlib Require Import Zdivisibility Zcong.
From Stdlib Require Import QArith Qround Qreduction Qabs.
From Stdlib Require Import Floats.PrimFloat Floats.SpecFloat Floats.FloatOps.
From Stdlib Require String.
Import ListNotations.
Import String.StringSyntax.

Delimit Scope string_scope with string.

#[local] Open Scope Z_scope.

(** ** The exception monad *)

Definition ret {A} (a : A) : option A := Some a.

Definition bind {A B} (m : option A) (k : A -> option B) : option B :=
  match m with
  | Some a => k a
  | None => None
  end.

Notation "x <- m ;; k" := (bind m (fun x => k))
  (at level 61, m at next level, right associativity).

(** ** Python built-ins used by the script *)

Module Py.

(** [range(lo, hi)]; empty when [hi <= lo]. *)
Definition range (lo hi : Z) : list Z :=
  map (fun k => lo + Z.of_nat k) (seq 0 (Z.to_nat (hi - lo))).

(** [pow(a, -1, m)] for a positive modulus, as an integer: the inverse of
    [a] modulo [m] in [0, m).  When [a] is not invertible there is no
    integer value and the result is [None]: Python's integers raise
    [ValueError], sympy's go on with a rational (module [Sym] below). *)
Definition pow_inv (a m : Z) : option Z :=
  if Z.gcd a m =? 1 then Some (Z.invmod a m) else None.

(** A number handed to [round] and [abs]: an integer or a float. *)
Inductive num : Type :=
| PyInt (z : Z)
| PyFloat (x : float).

(** The float nearest to an integer (the conversion [int -> float]). *)
Definition float_of_Z (z : Z) : float :=
  SF2Prim (binary_normalize prec emax z 0 false).

(** Rounding [m / 2^d] to the nearest integer, ties to even. *)
Definition round_half_even (m : Z) (d : Z) : Z :=
  let q := m / 2 ^ d in
  let r := m mod 2 ^ d in
  match 2 * r ?= 2 ^ d with
  | Lt => q
  | Gt => q + 1
  | Eq => if Z.even q then q else q + 1
  end.

(** [round(k)] with one argument: an integer is returned unchanged; a float
    is rounded to the nearest integer, ties to even; NaN and the infinities
    raise. *)
Definition round (k : num) : option Z :=
  match k with
  | PyInt z => Some z
  | PyFloat x =>
      match Prim2SF x with
      | S754_zero _ => Some 0
      | S754_finite s m e =>
          let v := if 0 <=? e then Z.pos m * 2 ^ e
                   else round_half_even (Z.pos m) (- e) in
          Some (if s then - v else v)
      | S754_infinity _ | S754_nan => None
      end
  end.

(** [k - r] for an integer [r]. *)
Definition sub (k : num) (r : Z) : num :=
  match k with
  | PyInt z => PyInt (z - r)
  | PyFloat x => PyFloat (PrimFloat.sub x (float_of_Z r))
  end.

Definition abs (k : num) : num :=
  match k with
  | PyInt z => PyInt (Z.abs z)
  | PyFloat x => PyFloat (PrimFloat.abs x)
  end.

(** The exact comparison of an integer with a float ([None] for NaN). *)
Definition Zcompare_float (z : Z) (x : float) : option comparison :=
  match Prim2SF x with
  | S754_nan => None
  | S754_infinity s => Some (if s then Gt else Lt)
  | S754_zero _ => Some (z ?= 0)
  | S754_finite s m e =>
      let v := if s then Z.neg m else Z.pos m in
      Some (if 0 <=? e then z ?= v * 2 ^ e else z * 2 ^ (- e) ?= v)
  end.

(** [k > tol] and [k < tol]. *)
Definition gt (k : num) (tol : float) : bool :=
  match k with
  | PyInt z => match Zcompare_float z tol with Some Gt => true | _ => false end
  | PyFloat x => PrimFloat.ltb tol x
  end.

Definition lt (k : num) (tol : float) : bool :=
  match k with
  | PyInt z => match Zcompare_float z tol with Some Lt => true | _ => false end
  | PyFloat x => PrimFloat.ltb x tol
  end.

(** A list comprehension [[s for s in l if c(s)]] whose condition may raise. *)
Fixpoint filterM {A} (c : A -> option bool) (l : list A) : option (list A) :=
  match l with
  | [] => ret []
  | a :: l' =>
      b <- c a ;;
      rest <- filterM c l' ;;
      ret (if b then a :: rest else rest)
  end.

(** [any(c(s) for s in l)], stopping at the first true. *)
Fixpoint anyM {A} (c : A -> option bool) (l : list A) : option bool :=
  match l with
  | [] => ret false
  | a :: l' =>
      b <- c a ;;
      if b then ret true else anyM c l'
  end.

End Py.

(** ** Polynomials with integer coefficients *)

Module Poly.

(** The coefficients, indexed by degree: [[a0; a1; a2]] is [a0 + a1 x + a2 x^2]. *)
Definition poly : Type := list Z.

(** [f.subs(x, k)]. *)
Fixpoint subs (f : poly) (k : Z) : Z :=
  match f with
  | [] => 0
  | a :: g => a + k * subs g k
  end.

(** The coefficients [j * a_j], [(j+1) * a_(j+1)], ... *)
Fixpoint diff_from (j : Z) (f : poly) : poly :=
  match f with
  | [] => []
  | a :: g => j * a :: diff_from (j + 1) g
  end.

(** [f.diff(x)], the formal derivative. *)
Definition diff (f : poly) : poly := diff_from 1 (tl f).

End Poly.

(** ** The script *)

Module HenselLifting.

Import Poly.

(** The tolerance [1e-6], as the binary64 value the literal denotes. *)
Definition tol_default : float := 0x1.0c6f7a0b5ed8dp-20%float.

(** The body of the inner loop [for s in sols], acting on [new_sols]. *)
Definition lift_body (f : poly) (p i : Z) (s : Z) (new_sols : list Z)
  : option (list Z) :=
  let mod_ := p ^ (i + 1) in
  let prev_mod := p ^ i in
  let df_val := subs (diff f) s mod p in
  let f_val := subs f s mod mod_ in
  if negb (df_val =? 0) then
    inv <- Py.pow_inv df_val p ;;
    let t := ((- f_val) / prev_mod * inv) mod p in
    ret (new_sols ++ [s + t * prev_mod])
  else if f_val mod mod_ =? 0 then
    ret (new_sols ++ [s])
  else
    ret new_sols.

(** The inner loop. *)
Fixpoint lift_sols (f : poly) (p i : Z) (sols new_sols : list Z)
  : option (list Z) :=
  match sols with
  | [] => ret new_sols
  | s :: rest =>
      new_sols' <- lift_body f p i s new_sols ;;
      lift_sols f p i rest new_sols'
  end.

(** The outer loop [for i in range(1, n)], over the levels still to do. *)
Fixpoint lift_levels (f : poly) (p : Z) (levels : list Z) (sols : list Z)
  : option (list Z) :=
  match levels with
  | [] => ret sols
  | i :: levels' =>
      new_sols <- lift_sols f p i sols [] ;;
      lift_levels f p levels' new_sols
  end.

(** The scan [[k for k in range(p) if f.subs(x, k) % p == 0]]. *)
Definition scan (f : poly) (p : Z) : list Z :=
  filter (fun k => subs f k mod p =? 0) (Py.range 0 p).

(** The closing filter [abs(s - round(s)) < 1e-6]. *)
Definition near_integer (s : Py.num) : option bool :=
  r <- Py.round s ;;
  ret (Py.lt (Py.abs (Py.sub s r)) tol_default).

Definition hensel_lift (f : poly) (p n : Z) : option (list Z) :=
  sols <- lift_levels f p (Py.range 1 n) (scan f p) ;;
  Py.filterM (fun s => near_integer (Py.PyInt s)) sols.

(** The residues held in [sols] when level [i] is reached, that is after the
    rounds [1 .. i-1] of the outer loop. *)
Definition working (f : poly) (p i : Z) : option (list Z) :=
  lift_levels f p (Py.range 1 i) (scan f p).

Definition check_irrational (k : Py.num) (tol : float) : option bool :=
  r <- Py.round k ;;
  ret (Py.gt (Py.abs (Py.sub k r)) tol).

(** The spec's [isInteger]: the negation of [check_irrational]. *)
Definition isInteger (value : Py.num) (tolerance : float) : option bool :=
  b <- check_irrational value tolerance ;;
  ret (negb b).

(** How a run of the driver ends. *)
Inductive outcome : Type :=
| Passed                 (* prints "3-adic verification passed" *)
| NonIntegerSolution     (* ValueError("Non-integer solution detected") *)
| CounterexampleFound    (* the assertion len(sols) == 0 fails *)
| Raised.                (* the run does not end in the integers *)

(** The driver, for a polynomial, a prime and a precision. *)
Definition driver (f : poly) (p n : Z) : outcome :=
  match hensel_lift f p n with
  | None => Raised
  | Some sols =>
      match Py.anyM (fun sol => check_irrational (Py.PyInt sol) tol_default) sols with
      | None => Raised
      | Some true => NonIntegerSolution
      | Some false =>
          if (Z.of_nat (length sols) =? 0) then Passed else CounterexampleFound
      end
  end.

(** [x^3 - 3]. *)
Definition x3_minus_3 : poly := [-3; 0; 0; 1].

(** The [__main__] block. *)
Definition main : outcome := driver x3_minus_3 3 5.

End HenselLifting.

(** ** The run on sympy numbers *)

(** [hensel_lifting.py] computes with sympy numbers: [f.subs] and [%] yield
    an [Integer] or a [Rational].  As long as every inverse asked for
    exists the run stays in the integers and is the one of
    [HenselLifting].  Where [pow(df_val, -1, p)] has no integer value sympy
    does not raise: it goes on with [(1 / df_val) % p], a [Rational].  This
    module follows the run there. *)

Module Sym.

Import Poly.

(** A sympy number: an [Integer] (or a Python [int]), or a [Rational] that
    is not an integer, in lowest terms. *)
Inductive num : Type :=
| Int (z : Z)
| Rat (q : Q).

Definition toQ (a : num) : Q :=
  match a with
  | Int z => inject_Z z
  | Rat q => q
  end.

(** The sympy number of a rational value. *)
Definition norm (q : Q) : num :=
  let r := Qred q in
  if (Qden r =? 1)%positive then Int (Qnum r) else Rat r.

Definition add (a b : num) : num :=
  match a, b with
  | Int x, Int y => Int (x + y)
  | _, _ => norm (toQ a + toQ b)%Q
  end.

Definition mul (a b : num) : num :=
  match a, b with
  | Int x, Int y => Int (x * y)
  | _, _ => norm (toQ a * toQ b)%Q
  end.

Definition neg (a : num) : num :=
  match a with
  | Int x => Int (- x)
  | Rat q => Rat (- q)%Q
  end.

Definition abs (a : num) : num :=
  match a with
  | Int x => Int (Z.abs x)
  | Rat q => Rat (Qabs q)
  end.

(** [a // m], an integer. *)
Definition floordiv (a : num) (m : Z) : Z :=
  match a with
  | Int x => x / m
  | Rat q => Qfloor (q / inject_Z m)%Q
  end.

(** [a % m]. *)
Definition modulo (a : num) (m : Z) : num :=
  match a with
  | Int x => Int (x mod m)
  | Rat q => norm (q - inject_Z m * inject_Z (Qfloor (q / inject_Z m)))%Q
  end.

(** [a == 0], and so [a != 0]. *)
Definition is_zero (a : num) : bool :=
  match a with
  | Int x => x =? 0
  | Rat q => Qeq_bool q 0
  end.

(** [f.subs(x, k)]. *)
Fixpoint subs (f : poly) (k : num) : num :=
  match f with
  | [] => Int 0
  | a :: g => add (Int a) (mul k (subs g k))
  end.

(** [pow(d, -1, p)] on a sympy number, for a modulus above 1: the inverse
    modulo [p] of an integer [d] coprime to [p]; otherwise [(1 / d) % p]. *)
Definition pow_inv (d : num) (p : Z) : num :=
  match d with
  | Int z =>
      if Z.gcd z p =? 1 then Int (Z.invmod z p)
      else modulo (norm (/ inject_Z z)%Q) p
  | Rat q => modulo (norm (/ q)%Q) p
  end.

(** [round(k)]: to the nearest integer, ties to even. *)
Definition round (k : num) : Z :=
  match k with
  | Int z => z
  | Rat q =>
      let fl := Qfloor q in
      match Qcompare (q - inject_Z fl)%Q (1 # 2)%Q with
      | Lt => fl
      | Gt => fl + 1
      | Eq => if Z.even fl then fl else fl + 1
      end
  end.

(** The exact comparison of a rational with a float ([None] for NaN). *)
Definition Qcompare_float (q : Q) (x : float) : option comparison :=
  match Prim2SF x with
  | S754_nan => None
  | S754_infinity s => Some (if s then Gt else Lt)
  | S754_zero _ => Some (Qcompare q 0)
  | S754_finite s m e =>
      let v := if s then Z.neg m else Z.pos m in
      Some (if 0 <=? e then Qcompare q (inject_Z (v * 2 ^ e))
            else Qcompare q (v # Z.to_pos (2 ^ (- e))))
  end.

Definition compare_float (a : num) (x : float) : option comparison :=
  match a with
  | Int z => Py.Zcompare_float z x
  | Rat q => Qcompare_float q x
  end.

(** [a < tol] and [a > tol]. *)
Definition lt (a : num) (tol : float) : bool :=
  match compare_float a tol with Some Lt => true | _ => false end.

Definition gt (a : num) (tol : float) : bool :=
  match compare_float a tol with Some Gt => true | _ => false end.

(** The body of the inner loop [for s in sols], acting on [new_sols]. *)
Definition lift_body (f : poly) (p i : Z) (s : num) (new_sols : list num)
  : list num :=
  let mod_ := p ^ (i + 1) in
  let prev_mod := p ^ i in
  let df_val := modulo (subs (diff f) s) p in
  let f_val := modulo (subs f s) mod_ in
  if negb (is_zero df_val) then
    let t :=
      modulo (mul (Int (floordiv (neg f_val) prev_mod)) (pow_inv df_val p)) p in
    new_sols ++ [add s (mul t (Int prev_mod))]
  else if is_zero (modulo f_val mod_) then
    new_sols ++ [s]
  else
    new_sols.

Fixpoint lift_sols (f : poly) (p i : Z) (sols new_sols : list num)
  : list num :=
  match sols with
  | [] => new_sols
  | s :: rest => lift_sols f p i rest (lift_body f p i s new_sols)
  end.

Fixpoint lift_levels (f : poly) (p : Z) (levels : list Z) (sols : list num)
  : list num :=
  match levels with
  | [] => sols
  | i :: levels' => lift_levels f p levels' (lift_sols f p i sols [])
  end.

(** The scan [[k for k in range(p) if f.subs(x, k) % p == 0]], of Python
    integers. *)
Definition scan (f : poly) (p : Z) : list num :=
  map Int (HenselLifting.scan f p).

(** The closing filter [abs(s - round(s)) < 1e-6]. *)
Definition near_integer (s : num) : bool :=
  lt (abs (add s (neg (Int (round s))))) HenselLifting.tol_default.

(** The residues in [sols] when the outer loop ends. *)
Definition lifted (f : poly) (p n : Z) : list num :=
  lift_levels f p (Py.range 1 n) (scan f p).

Definition hensel_lift (f : poly) (p n : Z) : list num :=
  filter near_integer (lifted f p n).

Definition check_irrational (k : num) (tol : float) : bool :=
  gt (abs (add k (neg (Int (round k))))) tol.

(** The driver. *)
Definition driver (f : poly) (p n : Z) : HenselLifting.outcome :=
  let sols := hensel_lift f p n in
  if existsb (fun sol => check_irrational sol HenselLifting.tol_default) sols
  then HenselLifting.NonIntegerSolution
  else if Z.of_nat (length sols) =? 0 then HenselLifting.Passed
  else HenselLifting.CounterexampleFound.

End Sym.

(** ** The companion script [verify_3adic.py] *)

Module Verify3adic.

(** The inner function of [verify_3adic_logic_enhanced], on an integer [k]
    (every candidate it is called on is an integer). *)
Definition check_3adic_constraint_enhanced (k : Z) (tolerance : float)
  : bool * String.string :=
  let basic_3adic := Py.lt (Py.abs (Py.PyInt (k mod 3))) tolerance in
  let ginzburg_valid := (0 <? k) && (k =? 3) in
  if basic_3adic && ginzburg_valid then
    (true, "Both 3-adic and Ginzburg constraints satisfied"%string)
  else if basic_3adic then
    (true, "3-adic satisfied, Ginzburg enhancement supports k=3"%string)
  else
    (false, "Failed basic 3-adic constraint"%string).

Definition k_candidates : list Z := [1; 2; 3; 4; 5; 6; 9; 12; 15].

(** The list [valid_k] that [verify_3adic_logic_enhanced] returns. *)
Definition verify_3adic_logic_enhanced : list Z :=
  filter
    (fun k => fst (check_3adic_constraint_enhanced k HenselLifting.tol_default))
    k_candidates.

(** The inner function of [simulate_hensel_lifting]: the residues [x] below
    [p ** n] with [x^3 = 3] modulo [p ** n], by exhaustive search.  For a
    negative [n] the power is not an integer and [range] raises. *)
Definition hensel_step (x0 p n : Z) : option (list Z) :=
  if n <? 0 then None
  else
    let mod_val := p ^ n in
    ret (filter (fun x => (x ^ 3 - 3) mod mod_val =? 0) (Py.range 0 mod_val)).

(** The loop [while temp_det % 3 == 0: v_3 += 1; temp_det //= 3], run for at
    most [fuel] tests of its condition; it yields the final [v_3] and
    [temp_det]. *)
Fixpoint valuation_loop (fuel : nat) (v_3 temp_det : Z) : option (Z * Z) :=
  match fuel with
  | O => None
  | S fuel' =>
      if temp_det mod 3 =? 0 then
        valuation_loop fuel' (v_3 + 1) (temp_det / 3)
      else ret (v_3, temp_det)
  end.

(** The body of the innermost loop of [check_determinant_constraint]:
    [true] stands for [return True], [false] for going on. *)
Definition inspect_matrix (fuel : nat) (m : Z * Z * Z * Z) : option bool :=
  let '(a, b, c, d) := m in
  let det := a * d - b * c in
  if negb (det =? 0) then
    r <- valuation_loop fuel 0 (Z.abs det) ;;
    let v_3 := fst r in
    if v_3 =? 0 then ret false
    else if 0 <? v_3 then ret false
    else ret true
  else ret false.

(** The matrices visited by the four nested loops, in their order. *)
Definition matrices (max_search : Z) : list (Z * Z * Z * Z) :=
  flat_map (fun a =>
  flat_map (fun b =>
  flat_map (fun c =>
  map (fun d => (a, b, c, d))
    (Py.range 1 max_search))
    (Py.range 1 max_search))
    (Py.range 1 max_search))
    (Py.range 1 max_search).

(** The inner function of [verify_minkowski_bound]. *)
Definition check_determinant_constraint (fuel : nat) (k : Z) : option bool :=
  let max_search := 10 in
  Py.anyM (inspect_matrix fuel) (matrices max_search).

End Verify3adic.

(** ** The summary of [validate_all.py] *)

Module ValidateAll.

(** [pat in s] on strings. *)
Definition contains (pat s : String.string) : bool :=
  match String.index 0 pat s with
  | Some _ => true
  | None => false
  end.

(** [all(l)]. *)
Definition all (l : list bool) : bool := forallb (fun b => b) l.

(** [[r for desc, r in results if "Path II" in desc]]. *)
Definition path2_results (results : list (String.string * bool)) : list bool :=
  map snd (filter (fun dr => contains "Path II"%string (fst dr)) results).

(** [[r for desc, r in results if "Path III" in desc]]. *)
Definition path3_results (results : list (String.string * bool)) : list bool :=
  map snd (filter (fun dr => contains "Path III"%string (fst dr)) results).

End ValidateAll.

Import Poly HenselLifting.

(** ** Vocabulary of the properties *)

(** [r] is a root of [f] at level [i]: a residue modulo [p^i] that [f] sends
    to zero modulo [p^i]. *)
Definition root_at (f : poly) (p i r : Z) : Prop :=
  subs f r mod p ^ i = 0 /\ 0 <= r < p ^ i.

(** What the loop body appends for a residue [s] of level [i]. *)
Inductive lifts (f : poly) (p i s : Z) : list Z -> Prop :=
| lifts_regular r :
    subs (diff f) s mod p <> 0 ->
    r mod p ^ i = s -> root_at f p (i + 1) r ->
    lifts f p i s [r]
| lifts_kept :
    subs (diff f) s mod p = 0 ->
    root_at f p (i + 1) s ->
    lifts f p i s [s]
| lifts_dropped :
    subs (diff f) s mod p = 0 ->
    subs f s mod p ^ (i + 1) <> 0 ->
    lifts f p i s [].

(** The number of residues of [l] in the class of [a] modulo [p]. *)
Definition count_mod (p a : Z) (l : list Z) : nat :=
  length (filter (fun r => r mod p =? a mod p) l).

(** The zero polynomial, whatever the length of its coefficient list. *)
Definition zero_poly (f : poly) : Prop := Forall (fun a => a = 0) f.

(** [x^2 - 1]. *)
Definition x2_minus_1 : poly := [-1; 0; 1].

(** [x^2]. *)
Definition x_squared : poly := [0; 0; 1].

(** The floats denoted by the literals [3.0000001] and [3.00000001]. *)
Definition lit_3_0000001 : float := 0x1.800000d6bf94dp+1%float.
Definition lit_3_00000001 : float := 0x1.80000015798eep+1%float.

(** A number other than NaN and the infinities. *)
Definition finite (k : Py.num) : bool :=
  match k with
  | Py.PyInt _ => true
  | Py.PyFloat x =>
      match Prim2SF x with
      | S754_zero _ | S754_finite _ _ _ => true
      | S754_infinity _ | S754_nan => false
      end
  end.

(** ** Polynomial evaluation *)

Section PolyFacts.

Example diff_x3_minus_3 : diff x3_minus_3 = [0; 0; 3].
Proof. reflexivity. Qed.

Example subs_x3_minus_3 : subs x3_minus_3 2 = 5.
Proof. reflexivity. Qed.

Example hensel_lift_sqrt_2_mod_7 : hensel_lift [-2; 0; 1] 7 2 = Some [10; 39].
Proof. vm_compute. reflexivity. Qed.

Example round_ties_to_even :
  Py.round (Py.PyFloat 2.5) = Some 2 /\ Py.round (Py.PyFloat 3.5) = Some 4
  /\ Py.round (Py.PyFloat (-1.5)) = Some (-2).
Proof. repeat split; vm_compute; reflexivity. Qed.

Lemma subs_diff_from (g : poly) : forall j x,
  subs (diff_from j g) x = j * subs g x + x * subs (diff g) x.
Proof.
  induction g as [|a g IH]; intros j x.
  - cbn. ring.
  - change (diff (a :: g)) with (diff_from 1 g).
    cbn [diff_from subs]. rewrite (IH (j + 1)), (IH 1). ring.
Qed.

(** The Taylor expansion to first order, with an explicit remainder. *)
Lemma subs_taylor (f : poly) (s h : Z) :
  exists q, subs f (s + h) = subs f s + subs (diff f) s * h + q * (h * h).
Proof.
  induction f as [|a g [q IH]].
  - exists 0. cbn. ring.
  - change (diff (a :: g)) with (diff_from 1 g).
    rewrite subs_diff_from. cbn [subs]. rewrite IH.
    exists (subs (diff g) s + s * q + h * q). ring.
Qed.

Lemma subs_sub (f : poly) (a b : Z) :
  exists q, subs f a - subs f b = q * (a - b).
Proof.
  induction f as [|c g [q IH]].
  - exists 0. cbn. ring.
  - exists (a * q + subs g b). cbn [subs].
    replace (c + a * subs g a - (c + b * subs g b))
      with (a * (subs g a - subs g b) + (a - b) * subs g b) by ring.
    rewrite IH. ring.
Qed.

(** Congruent arguments give congruent values. *)
Lemma subs_cong (f : poly) (a b m : Z) :
  a mod m = b mod m -> subs f a mod m = subs f b mod m.
Proof.
  intros H. apply Z.cong_iff_ex in H. destruct H as [k Hk].
  destruct (subs_sub f a b) as [q Hq].
  apply Z.cong_iff_ex. exists (q * k). rewrite Hq, Hk. ring.
Qed.

End PolyFacts.

(** ** Powers of the modulus *)

Section Powers.

Variable p : Z.
Hypothesis p_ge_2 : 2 <= p.

Lemma pow_pos i : 0 <= i -> 0 < p ^ i.
Proof. intros Hi. apply Z.pow_pos_nonneg; lia. Qed.

Lemma pow_succ i : 0 <= i -> p ^ (i + 1) = p * p ^ i.
Proof. intros Hi. rewrite Z.pow_add_r, Z.pow_1_r by lia. ring. Qed.

Lemma mod_pow_mod (a i j : Z) :
  0 <= j <= i -> (a mod p ^ i) mod p ^ j = a mod p ^ j.
Proof.
  intros Hij.
  assert (Hpj : 0 < p ^ j) by (apply pow_pos; lia).
  replace (p ^ i) with (p ^ (i - j) * p ^ j)
    by (rewrite <- Z.pow_add_r by lia; f_equal; lia).
  apply Z.cong_iff_ex.
  exists (- (a / (p ^ (i - j) * p ^ j)) * p ^ (i - j)).
  assert (Hne : p ^ (i - j) * p ^ j <> 0).
  { assert (0 < p ^ (i - j)) by (apply pow_pos; lia). nia. }
  pose proof (Z.div_mod a _ Hne) as E.
  nia.
Qed.

Lemma mod_pow_1 (a i : Z) : 1 <= i -> (a mod p ^ i) mod p = a mod p.
Proof.
  intros Hi. rewrite <- (Z.pow_1_r p) at 2 3.
  apply mod_pow_mod. lia.
Qed.

End Powers.

(** ** One lifting step *)


Section Lifting.

Variable f : poly.
Variable p : Z.
Hypothesis p_prime : Z.prime p.

Let p_ge_2 : 2 <= p := Z.prime_ge_2 p p_prime.

(** The inverse asked for in the regular branch exists. *)
Lemma pow_inv_prime (d : Z) :
  d mod p <> 0 ->
  Py.pow_inv (d mod p) p = Some (Z.invmod d p)
  /\ (Z.invmod d p * d) mod p = 1.
Proof.
  intros Hd. split.
  - unfold Py.pow_inv.
    assert (Hc : Z.coprime p d).
    { apply Z.coprime_prime_l; trivial.
      intros Hdiv. apply Hd. now apply Z.mod0_divide. }
    unfold Z.coprime in Hc.
    rewrite Z.gcd_mod_l, Z.gcd_comm, Hc, Z.invmod_mod_l. reflexivity.
  - now apply Z.invmod_prime.
Qed.

(** The arithmetic of the regular branch: with [f(s) = P * c0], the lifted
    residue [s + t * P] is a root one level up. *)
Lemma regular_lift_root (s P c0 inv : Z) :
  0 < P -> P mod p = 0 ->
  subs f s = P * c0 ->
  (inv * subs (diff f) s) mod p = 1 ->
  let t := (- (c0 mod p) * inv) mod p in
  subs f (s + t * P) mod (p * P) = 0.
Proof.
  intros HP HPp Hfs Hinv t.
  destruct (subs_taylor f s (t * P)) as [q Hq].
  set (D := subs (diff f) s) in *.
  assert (Hp0 : p <> 0) by lia.
  pose proof (Z.div_mod (- (c0 mod p) * inv) p Hp0) as Et. fold t in Et.
  pose proof (Z.div_mod c0 p Hp0) as Ec.
  pose proof (Z.div_mod (inv * D) p Hp0) as Ei. rewrite Hinv in Ei.
  pose proof (Z.div_mod P p Hp0) as EP. rewrite HPp in EP.
  set (k1 := (- (c0 mod p) * inv) / p) in *.
  set (k2 := c0 / p) in *.
  set (k3 := (inv * D) / p) in *.
  set (P' := P / p) in *.
  set (c := c0 mod p) in *.
  apply Z.mod0_divide.
  exists (k2 - c * k3 - D * k1 + q * t * t * P').
  assert (Ht : t = - c * inv - p * k1) by lia.
  assert (Hlin : c0 + D * t = p * (k2 - c * k3 - D * k1)).
  { replace (D * t) with (- c * (inv * D) - p * (D * k1))
      by (rewrite Ht; ring).
    rewrite Ei, Ec. ring. }
  rewrite Hq, Hfs.
  replace (P * c0 + D * (t * P) + q * (t * P * (t * P)))
    with (P * (c0 + D * t) + q * t * t * P * P) by ring.
  rewrite Hlin. rewrite EP at 3. ring.
Qed.

(** The loop body appends exactly what [lifts] allows. *)
Lemma lift_body_spec (i s : Z) (new_sols : list Z) :
  1 <= i -> root_at f p i s ->
  exists l, lift_body f p i s new_sols = Some (new_sols ++ l)
            /\ lifts f p i s l.
Proof.
  intros Hi [Hroot Hrange].
  assert (HP : 0 < p ^ i) by (apply pow_pos; lia).
  assert (HM : p ^ (i + 1) = p * p ^ i) by (apply pow_succ; lia).
  unfold lift_body. rewrite Zmod_mod.
  destruct (Z.eqb_spec (subs (diff f) s mod p) 0) as [Hd | Hd]; cbn [negb].
  - destruct (Z.eqb_spec (subs f s mod p ^ (i + 1)) 0) as [Hz | Hz].
    + exists [s]. split; [reflexivity |].
      apply lifts_kept; trivial. split; [trivial | nia].
    + exists []. split; [now rewrite app_nil_r |].
      now apply lifts_dropped.
  - destruct (pow_inv_prime _ Hd) as [Hinv Hone].
    rewrite Hinv. cbn [bind].
    eexists. split; [reflexivity |].
    set (c0 := subs f s / p ^ i).
    assert (Hfs : subs f s = p ^ i * c0).
    { apply Z.div_exact; lia. }
    assert (Ht : - (subs f s mod p ^ (i + 1)) / p ^ i = - (c0 mod p)).
    { rewrite HM, Hfs, (Z.mul_comm p), Zmult_mod_distr_l.
      rewrite <- Z.mul_opp_r, Z.mul_comm. apply Z.div_mul. lia. }
    rewrite Ht.
    set (t := (- (c0 mod p) * Z.invmod (subs (diff f) s) p) mod p).
    assert (Htr : 0 <= t < p) by (apply Z.mod_pos_bound; lia).
    apply lifts_regular; trivial.
    + rewrite Z.mod_add by lia. apply Z.mod_small. lia.
    + split.
      * rewrite HM. apply regular_lift_root; trivial.
        replace i with (1 + (i - 1)) by lia.
        rewrite Z.pow_add_r, Z.pow_1_r by lia.
        rewrite Z.mul_comm. apply Z.mod_mul. lia.
      * nia.
Qed.

(** The inner loop appends, residue by residue, what [lifts] allows. *)
Lemma lift_sols_spec (i : Z) (sols : list Z) : forall new_sols,
  1 <= i -> Forall (root_at f p i) sols ->
  exists ls, lift_sols f p i sols new_sols = Some (new_sols ++ concat ls)
             /\ Forall2 (lifts f p i) sols ls.
Proof.
  induction sols as [|s rest IH]; intros new_sols Hi Hall.
  - exists []. cbn. now rewrite app_nil_r.
  - inversion Hall as [|? ? Hs Hrest]; subst.
    destruct (lift_body_spec i s new_sols Hi Hs) as [l [El Hl]].
    destruct (IH (new_sols ++ l) Hi Hrest) as [ls [Els Hls]].
    exists (l :: ls). cbn [lift_sols concat]. rewrite El. cbn [bind].
    rewrite Els, app_assoc. split; [reflexivity | now constructor].
Qed.

(** Every appended residue is a root one level up and reduces to the residue
    it was lifted from. *)
Lemma lifts_In (i s : Z) (l : list Z) (r : Z) :
  root_at f p i s -> lifts f p i s l -> In r l ->
  r mod p ^ i = s /\ root_at f p (i + 1) r.
Proof.
  intros [_ Hrange] Hl Hin.
  destruct Hl as [r' Hd Hr' Hroot | Hd Hroot | Hd Hz]; cbn in Hin.
  - destruct Hin as [<- | []]. now split.
  - destruct Hin as [<- | []]. split; [apply Z.mod_small; lia | trivial].
  - contradiction.
Qed.

Lemma lifts_concat_In (i : Z) (sols : list Z) (ls : list (list Z)) (r : Z) :
  Forall (root_at f p i) sols -> Forall2 (lifts f p i) sols ls ->
  In r (concat ls) ->
  In (r mod p ^ i) sols /\ root_at f p (i + 1) r.
Proof.
  intros Hall H2. induction H2 as [|s l sols ls Hl H2 IH]; cbn [concat].
  - intros [].
  - inversion Hall as [|? ? Hs Hrest]; subst.
    intros Hin. apply in_app_or in Hin. destruct Hin as [Hin | Hin].
    + destruct (lifts_In i s l r Hs Hl Hin) as [E Hr].
      split; [left; now symmetry | trivial].
    + destruct (IH Hrest Hin) as [Hin' Hr]. split; [now right | trivial].
Qed.

(** Distinct residues have distinct lifts. *)
Lemma lifts_concat_NoDup (i : Z) (sols : list Z) (ls : list (list Z)) :
  Forall (root_at f p i) sols -> Forall2 (lifts f p i) sols ls ->
  NoDup sols -> NoDup (concat ls).
Proof.
  intros Hall H2. induction H2 as [|s l sols ls Hl H2 IH]; cbn [concat].
  - intros _. constructor.
  - inversion Hall as [|? ? Hs Hrest]; subst.
    intros Hnd. inversion Hnd as [|? ? Hnotin Hnd']; subst.
    specialize (IH Hrest Hnd').
    assert (Hfresh : forall r, In r l -> ~ In r (concat ls)).
    { intros r Hr Hr'.
      destruct (lifts_In i s l r Hs Hl Hr) as [E _].
      destruct (lifts_concat_In i sols ls r Hrest H2 Hr') as [Hin _].
      rewrite E in Hin. contradiction. }
    destruct Hl as [r' Hd Hr' Hroot | Hd Hroot | Hd Hz]; cbn [app]; trivial.
    + constructor; [apply Hfresh; now left | trivial].
    + constructor; [apply Hfresh; now left | trivial].
Qed.


Lemma count_mod_app (a : Z) (l l' : list Z) :
  count_mod p a (l ++ l') = (count_mod p a l + count_mod p a l')%nat.
Proof. unfold count_mod. now rewrite filter_app, length_app. Qed.

(** A class on which the derivative does not vanish keeps its size. *)
Lemma lifts_concat_count (i a : Z) (sols : list Z) (ls : list (list Z)) :
  1 <= i -> subs (diff f) a mod p <> 0 ->
  Forall (root_at f p i) sols -> Forall2 (lifts f p i) sols ls ->
  count_mod p a (concat ls) = count_mod p a sols.
Proof.
  intros Hi Hda Hall H2. induction H2 as [|s l sols ls Hl H2 IH]; cbn [concat].
  - reflexivity.
  - inversion Hall as [|? ? Hs Hrest]; subst.
    rewrite count_mod_app, (IH Hrest).
    change (s :: sols) with ([s] ++ sols). rewrite count_mod_app.
    f_equal. unfold count_mod. cbn [filter].
    destruct Hl as [r' Hd Hr' Hroot | Hd Hroot | Hd Hz]; cbn [filter].
    + replace (r' mod p) with (s mod p)
        by (rewrite <- Hr'; now apply mod_pow_1).
      now destruct (s mod p =? a mod p).
    + reflexivity.
    + destruct (Z.eqb_spec (s mod p) (a mod p)) as [E | E]; [| reflexivity].
      exfalso. apply Hda. rewrite <- Hd. symmetry. now apply subs_cong.
Qed.

End Lifting.

(** ** The loops over the levels *)

Section Ranges.

Lemma map_seq_start {A} (b : nat) : forall (g : nat -> A) a,
  map g (seq a b) = map (fun k => g (a + k)%nat) (seq 0 b).
Proof.
  induction b as [|b IH]; intros g a; [reflexivity |].
  cbn [seq map]. rewrite Nat.add_0_r. f_equal.
  rewrite (IH g (S a)), (IH (fun k => g (a + k)%nat) 1%nat).
  apply map_ext. intros k. f_equal. lia.
Qed.

Lemma range_split (lo mid hi : Z) :
  lo <= mid <= hi -> Py.range lo hi = Py.range lo mid ++ Py.range mid hi.
Proof.
  intros H. unfold Py.range.
  replace (Z.to_nat (hi - lo))
    with (Z.to_nat (mid - lo) + Z.to_nat (hi - mid))%nat by lia.
  rewrite seq_app, map_app. f_equal.
  rewrite map_seq_start. apply map_ext. intros k. lia.
Qed.

Lemma range_one (i : Z) : Py.range i (i + 1) = [i].
Proof.
  unfold Py.range. replace (i + 1 - i) with 1 by lia.
  change (Z.to_nat 1) with 1%nat. cbn [seq map Z.of_nat].
  now rewrite Z.add_0_r.
Qed.

Lemma range_empty (lo hi : Z) : hi <= lo -> Py.range lo hi = [].
Proof.
  intros H. unfold Py.range.
  replace (Z.to_nat (hi - lo)) with 0%nat by lia. reflexivity.
Qed.

Lemma range_In (lo hi k : Z) : In k (Py.range lo hi) <-> lo <= k < hi.
Proof.
  unfold Py.range. rewrite in_map_iff. split.
  - intros [j [<- Hj]]. apply in_seq in Hj. lia.
  - intros H. exists (Z.to_nat (k - lo)). split; [lia |].
    apply in_seq. lia.
Qed.

Lemma range_NoDup (lo hi : Z) : NoDup (Py.range lo hi).
Proof.
  unfold Py.range. apply NoDup_map_NoDup_ForallPairs.
  - intros a b _ _ E. lia.
  - apply seq_NoDup.
Qed.

End Ranges.

Section Levels.

Variable f : poly.
Variable p : Z.

Lemma lift_levels_app (l1 l2 sols : list Z) :
  lift_levels f p (l1 ++ l2) sols =
  (w <- lift_levels f p l1 sols ;; lift_levels f p l2 w).
Proof.
  revert sols. induction l1 as [|i l1 IH]; intros sols; [reflexivity |].
  cbn [app lift_levels].
  destruct (lift_sols f p i sols []) as [w|]; cbn [bind]; [apply IH | reflexivity].
Qed.

Lemma working_1 : working f p 1 = Some (scan f p).
Proof. reflexivity. Qed.

(** One round of the outer loop takes level [i] to level [i + 1]. *)
Lemma working_succ (i : Z) :
  1 <= i ->
  working f p (i + 1) = (w <- working f p i ;; lift_sols f p i w []).
Proof.
  intros Hi. unfold working.
  rewrite (range_split 1 i (i + 1)) by lia.
  rewrite range_one, lift_levels_app.
  destruct (lift_levels f p (Py.range 1 i) (scan f p)) as [w|]; cbn [bind];
    [| reflexivity].
  cbn [lift_levels]. now destruct (lift_sols f p i w []).
Qed.

(** The closing filter keeps every integer. *)
Lemma near_integer_int (s : Z) : near_integer (Py.PyInt s) = Some true.
Proof.
  unfold near_integer. cbn [Py.round bind Py.sub Py.abs].
  rewrite Z.sub_diag. reflexivity.
Qed.

Lemma filterM_near_integer (sols : list Z) :
  Py.filterM (fun s => near_integer (Py.PyInt s)) sols = Some sols.
Proof.
  induction sols as [|s sols IH]; [reflexivity |].
  cbn [Py.filterM]. rewrite near_integer_int, IH. reflexivity.
Qed.

(** [check_irrational] is false on every integer, at the default tolerance. *)
Lemma check_irrational_int (s : Z) :
  check_irrational (Py.PyInt s) tol_default = Some false.
Proof.
  unfold check_irrational. cbn [Py.round bind Py.sub Py.abs].
  rewrite Z.sub_diag. reflexivity.
Qed.

Lemma anyM_check_irrational (sols : list Z) :
  Py.anyM (fun sol => check_irrational (Py.PyInt sol) tol_default) sols
  = Some false.
Proof.
  induction sols as [|s sols IH]; [reflexivity |].
  cbn [Py.anyM]. rewrite check_irrational_int. exact IH.
Qed.

(** The value returned at precision [n] is the working list of level [n]. *)
Lemma hensel_lift_working (n : Z) : hensel_lift f p n = working f p n.
Proof.
  unfold hensel_lift, working.
  destruct (lift_levels f p (Py.range 1 n) (scan f p)) as [w|]; cbn [bind];
    [apply filterM_near_integer | reflexivity].
Qed.

(** The run at precision [n] passes through the working list of every level
    [i <= n]. *)
Lemma hensel_lift_through (i n : Z) :
  1 <= i <= n ->
  hensel_lift f p n =
  (w <- working f p i ;;
   sols <- lift_levels f p (Py.range i n) w ;;
   Py.filterM (fun s => near_integer (Py.PyInt s)) sols).
Proof.
  intros H. unfold hensel_lift, working.
  rewrite (range_split 1 i n) by lia. rewrite lift_levels_app.
  now destruct (lift_levels f p (Py.range 1 i) (scan f p)).
Qed.

(** The scan keeps the roots modulo [p], each once. *)
Lemma scan_In (r : Z) :
  In r (scan f p) <-> 0 <= r < p /\ subs f r mod p = 0.
Proof.
  unfold scan. rewrite filter_In, range_In, Z.eqb_eq. tauto.
Qed.

Lemma scan_NoDup : NoDup (scan f p).
Proof. apply NoDup_filter, range_NoDup. Qed.

End Levels.

(** ** Invariants of the working list *)

Section Filter.

Context {A : Type}.

Lemma filter_none (P : A -> bool) (l : list A) :
  (forall y, In y l -> P y = false) -> filter P l = [].
Proof.
  induction l as [|a l IH]; intros H; [reflexivity |].
  cbn [filter]. rewrite (H a) by now left.
  apply IH. intros y Hy. apply H. now right.
Qed.

(** In a list without repetition a property held by one element only
    selects one element. *)
Lemma filter_unique (P : A -> bool) (x : A) (l : list A) :
  NoDup l -> In x l -> P x = true ->
  (forall y, In y l -> P y = true -> y = x) ->
  length (filter P l) = 1%nat.
Proof.
  induction l as [|a l IH]; intros Hnd Hin Hx Huniq; [contradiction |].
  inversion Hnd as [|? ? Hnotin Hnd']; subst.
  cbn [filter]. destruct Hin as [-> | Hin].
  - rewrite Hx. cbn [length]. f_equal.
    rewrite filter_none; [reflexivity |].
    intros y Hy. destruct (P y) eqn:E; [| reflexivity].
    exfalso. apply Hnotin.
    rewrite <- (Huniq y (or_intror Hy) E). exact Hy.
  - destruct (P a) eqn:E.
    + exfalso. apply Hnotin.
      rewrite (Huniq a (or_introl eq_refl) E). exact Hin.
    + apply IH; trivial.
      intros y Hy. apply Huniq. now right.
Qed.

End Filter.

Section Invariants.

Variable f : poly.
Variable p : Z.
Hypothesis p_prime : Z.prime p.

Let p_ge_2 : 2 <= p := Z.prime_ge_2 p p_prime.

Lemma scan_roots : Forall (root_at f p 1) (scan f p).
Proof.
  apply Forall_forall. intros r Hr. apply scan_In in Hr.
  unfold root_at. rewrite Z.pow_1_r. tauto.
Qed.

(** The step from one level to the next, residue by residue. *)
Lemma working_step (i : Z) (w : list Z) :
  1 <= i -> working f p i = Some w -> Forall (root_at f p i) w ->
  exists ls, working f p (i + 1) = Some (concat ls)
             /\ Forall2 (lifts f p i) w ls.
Proof.
  intros Hi Hw Hall.
  destruct (lift_sols_spec f p p_prime i w [] Hi Hall) as [ls [E H2]].
  exists ls. split; [| exact H2].
  rewrite working_succ, Hw by exact Hi. exact E.
Qed.

(** At every level the working list holds roots of that level, each once. *)
Lemma working_inv_nat (k : nat) :
  exists w, working f p (1 + Z.of_nat k) = Some w
            /\ Forall (root_at f p (1 + Z.of_nat k)) w /\ NoDup w.
Proof.
  induction k as [|k [w [Hw [Hall Hnd]]]].
  - exists (scan f p). split; [reflexivity |].
    split; [apply scan_roots | apply scan_NoDup].
  - replace (1 + Z.of_nat (S k)) with (1 + Z.of_nat k + 1) by lia.
    destruct (working_step (1 + Z.of_nat k) w) as [ls [E H2]];
      [lia | trivial | trivial |].
    exists (concat ls). split; [exact E |]. split.
    + apply Forall_forall. intros r Hr.
      now destruct (lifts_concat_In f p _ w ls r Hall H2 Hr).
    + now apply (lifts_concat_NoDup f p (1 + Z.of_nat k) w ls).
Qed.

Lemma working_inv (i : Z) :
  1 <= i ->
  exists w, working f p i = Some w /\ Forall (root_at f p i) w /\ NoDup w.
Proof.
  intros Hi. replace i with (1 + Z.of_nat (Z.to_nat (i - 1))) by lia.
  apply working_inv_nat.
Qed.

(** Reducing a residue of a higher level gives a residue of a lower one. *)
Lemma working_proj_nat (m : Z) (wm : list Z) (k : nat) :
  1 <= m -> working f p m = Some wm ->
  forall wn r, working f p (m + Z.of_nat k) = Some wn ->
  In r wn -> In (r mod p ^ m) wm.
Proof.
  intros Hm Hwm. induction k as [|k IH]; intros wn r Hwn Hr.
  - rewrite Z.add_0_r, Hwm in Hwn. injection Hwn as <-.
    destruct (working_inv m Hm) as [w [Hw [Hall _]]].
    rewrite Hwm in Hw. injection Hw as <-.
    rewrite Forall_forall in Hall. destruct (Hall r Hr) as [_ Hrange].
    rewrite Z.mod_small; trivial.
  - replace (m + Z.of_nat (S k)) with (m + Z.of_nat k + 1) in Hwn by lia.
    destruct (working_inv (m + Z.of_nat k)) as [w [Hw [Hall _]]]; [lia |].
    destruct (working_step (m + Z.of_nat k) w) as [ls [E H2]];
      [lia | trivial | trivial |].
    rewrite E in Hwn. injection Hwn as <-.
    destruct (lifts_concat_In f p _ w ls r Hall H2 Hr) as [Hin _].
    specialize (IH w _ Hw Hin).
    rewrite mod_pow_mod in IH by lia. exact IH.
Qed.

(** The class of a root modulo [p] with non-vanishing derivative holds one
    residue at every level. *)
Lemma working_count_nat (s : Z) (k : nat) :
  subs f s mod p = 0 -> subs (diff f) s mod p <> 0 ->
  exists w, working f p (1 + Z.of_nat k) = Some w /\ count_mod p s w = 1%nat.
Proof.
  intros Hs Hd. induction k as [|k [w [Hw Hc]]].
  - exists (scan f p). split; [reflexivity |].
    unfold count_mod. apply (filter_unique _ (s mod p)).
    + apply scan_NoDup.
    + apply scan_In. split; [apply Z.mod_pos_bound; lia |].
      rewrite <- Hs. apply subs_cong. apply Zmod_mod.
    + apply Z.eqb_eq, Zmod_mod.
    + intros y Hy E. apply scan_In in Hy. apply Z.eqb_eq in E.
      rewrite <- E. symmetry. apply Z.mod_small. tauto.
  - replace (1 + Z.of_nat (S k)) with (1 + Z.of_nat k + 1) by lia.
    destruct (working_inv (1 + Z.of_nat k)) as [w' [Hw' [Hall _]]]; [lia |].
    rewrite Hw in Hw'. injection Hw' as <-.
    destruct (working_step (1 + Z.of_nat k) w) as [ls [E H2]];
      [lia | trivial | trivial |].
    exists (concat ls). split; [exact E |].
    rewrite <- Hc.
    apply (lifts_concat_count f p p_prime (1 + Z.of_nat k)); trivial. lia.
Qed.

End Invariants.

(** ** Parameters outside the contract *)


Lemma diff_from_zero (f : poly) :
  zero_poly f -> forall j k, subs (diff_from j f) k = 0.
Proof.
  induction 1 as [|a g -> _ IH]; intros j k; [reflexivity |].
  cbn [diff_from subs]. rewrite IH. ring.
Qed.

Lemma subs_zero (f : poly) : zero_poly f -> forall k, subs f k = 0.
Proof.
  induction 1 as [|a g -> _ IH]; intros k; [reflexivity |].
  cbn [subs]. rewrite IH. ring.
Qed.

Lemma subs_diff_zero (f : poly) : zero_poly f -> forall k, subs (diff f) k = 0.
Proof.
  intros H k. unfold diff. apply diff_from_zero.
  destruct H; [constructor | assumption].
Qed.

Section Unvalidated.

Variable f : poly.

Lemma lift_sols_nil (p i : Z) (new_sols : list Z) :
  lift_sols f p i [] new_sols = Some new_sols.
Proof. reflexivity. Qed.

Lemma lift_levels_nil (p : Z) (levels : list Z) :
  lift_levels f p levels [] = Some [].
Proof. induction levels as [|i levels IH]; [reflexivity | exact IH]. Qed.

(** With the modulus 1 every round keeps the single residue 0. *)
Lemma lift_levels_mod_1 (levels : list Z) :
  Forall (fun i => 1 <= i) levels -> lift_levels f 1 levels [0] = Some [0].
Proof.
  induction 1 as [|i levels Hi _ IH]; [reflexivity |].
  cbn [lift_levels lift_sols]. unfold lift_body.
  rewrite !Z.mod_1_r, Z.pow_1_l by lia. rewrite Z.mod_1_r.
  cbn [Z.eqb negb bind ret app]. exact IH.
Qed.

Lemma range_from_1 (n : Z) : Forall (fun i => 1 <= i) (Py.range 1 n).
Proof. apply Forall_forall. intros i Hi. apply range_In in Hi. lia. Qed.

Hypothesis f_zero : zero_poly f.

(** The zero polynomial: every residue is kept by every round. *)
Lemma lift_sols_zero (p i : Z) (sols : list Z) : forall new_sols,
  lift_sols f p i sols new_sols = Some (new_sols ++ sols).
Proof.
  induction sols as [|s rest IH]; intros new_sols.
  - cbn. now rewrite app_nil_r.
  - cbn [lift_sols]. unfold lift_body.
    rewrite subs_diff_zero, subs_zero, !Zmod_0_l by exact f_zero.
    cbn [Z.eqb negb bind ret]. rewrite IH, <- app_assoc. reflexivity.
Qed.

Lemma lift_levels_zero (p : Z) (levels sols : list Z) :
  lift_levels f p levels sols = Some sols.
Proof.
  induction levels as [|i levels IH]; [reflexivity |].
  cbn [lift_levels]. rewrite lift_sols_zero. exact IH.
Qed.

Lemma scan_zero (p : Z) : scan f p = Py.range 0 p.
Proof.
  unfold scan. induction (Py.range 0 p) as [|k l IH]; [reflexivity |].
  cbn [filter]. rewrite subs_zero, Zmod_0_l by exact f_zero.
  cbn [Z.eqb]. now rewrite IH.
Qed.

End Unvalidated.

(** ** The properties of the root lifter *)

(** C1.  For a prime [p] and a precision [n >= 1], [hensel_lift f p n]
    returns a list, and every [r] in it satisfies [f(r) mod p^n = 0] and
    [0 <= r < p^n].  Moreover the run passes, at every level [1 <= i <= n],
    through a working list all of whose elements [r] satisfy
    [f(r) mod p^i = 0] and [0 <= r < p^i]. *)
Theorem hensel_lift_roots (f : poly) (p n : Z) :
  Z.prime p -> 1 <= n ->
  (exists sols,
      hensel_lift f p n = Some sols
      /\ forall r, In r sols -> subs f r mod p ^ n = 0 /\ 0 <= r < p ^ n)
  /\ (forall i, 1 <= i <= n ->
      exists w,
        working f p i = Some w
        /\ hensel_lift f p n =
           (sols <- lift_levels f p (Py.range i n) w ;;
            Py.filterM (fun s => near_integer (Py.PyInt s)) sols)
        /\ forall r, In r w -> subs f r mod p ^ i = 0 /\ 0 <= r < p ^ i).
Proof.
  intros Hp Hn. split.
  - destruct (working_inv f p Hp n Hn) as [w [Hw [Hall _]]].
    exists w. split; [now rewrite hensel_lift_working |].
    intros r Hr. rewrite Forall_forall in Hall. exact (Hall r Hr).
  - intros i Hi.
    destruct (working_inv f p Hp i) as [w [Hw [Hall _]]]; [lia |].
    exists w. split; [exact Hw |]. split.
    + rewrite (hensel_lift_through f p i n Hi), Hw. reflexivity.
    + intros r Hr. rewrite Forall_forall in Hall. exact (Hall r Hr).
Qed.

Lemma hensel_lift_roots_witness :
  Z.prime 3 /\ 1 <= 3 /\
  exists sols,
    hensel_lift x2_minus_1 3 3 = Some sols
    /\ forall r, In r sols -> subs x2_minus_1 r mod 3 ^ 3 = 0 /\ 0 <= r < 3 ^ 3.
Proof.
  split; [exact Z.prime_3 |]. split; [lia |].
  apply (hensel_lift_roots x2_minus_1 3 3); [exact Z.prime_3 | lia].
Defined.

(** C2.  On [x^3 - 3] with [p = 3] and [n = 5], [hensel_lift] returns the
    empty list, so the driver's assertion [len(sols) == 0] holds and the run
    passes. *)
Theorem hensel_lift_cube_root_of_3 :
  hensel_lift x3_minus_3 3 5 = Some [] /\ main = Passed.
Proof. split; vm_compute; reflexivity. Qed.

(** C3.  Lifting consistency: for a prime [p] and [1 <= m <= n], both runs
    return a list, and every root returned at precision [n], reduced modulo
    [p^m], is a root returned at precision [m]. *)
Theorem hensel_lift_projective (f : poly) (p m n : Z) :
  Z.prime p -> 1 <= m <= n ->
  exists sols_m sols_n,
    hensel_lift f p m = Some sols_m
    /\ hensel_lift f p n = Some sols_n
    /\ forall r, In r sols_n -> In (r mod p ^ m) sols_m.
Proof.
  intros Hp Hmn.
  destruct (working_inv f p Hp m) as [wm [Hwm _]]; [lia |].
  destruct (working_inv f p Hp n) as [wn [Hwn _]]; [lia |].
  exists wm, wn. rewrite !hensel_lift_working.
  split; [exact Hwm |]. split; [exact Hwn |].
  intros r Hr.
  apply (working_proj_nat f p Hp m wm (Z.to_nat (n - m))) with (wn := wn);
    trivial; [lia |].
  replace (m + Z.of_nat (Z.to_nat (n - m))) with n by lia. exact Hwn.
Qed.

Lemma hensel_lift_projective_witness :
  Z.prime 3 /\ 1 <= 2 <= 3 /\
  exists sols_m sols_n,
    hensel_lift x2_minus_1 3 2 = Some sols_m
    /\ hensel_lift x2_minus_1 3 3 = Some sols_n
    /\ forall r, In r sols_n -> In (r mod 3 ^ 2) sols_m.
Proof.
  split; [exact Z.prime_3 |]. split; [lia |].
  apply (hensel_lift_projective x2_minus_1 3 2 3); [exact Z.prime_3 | lia].
Defined.

(** C4, as the code has it.  On [x^2 - 1] with [p = 3] and [n = 3],
    [hensel_lift] returns [1] and [26], which are exactly the residues [r]
    below 27 with [r^2 = 1] modulo 27. *)
Theorem hensel_lift_square_root_of_1 :
  hensel_lift x2_minus_1 3 3 = Some [1; 26]
  /\ filter (fun r => r * r mod 27 =? 1) (Py.range 0 27) = [1; 26].
Proof. split; vm_compute; reflexivity. Qed.

(** C4 fails as stated: the list returned is [1; 26], not [{1, 8, 19, 26}];
    8 and 19 are not returned, and are not roots of [x^2 - 1] modulo 27. *)
Lemma hensel_lift_square_root_of_1_cex :
  hensel_lift x2_minus_1 3 3 = Some [1; 26]
  /\ ~ In 8 [1; 26] /\ ~ In 19 [1; 26]
  /\ subs x2_minus_1 8 mod 3 ^ 3 = 9 /\ subs x2_minus_1 19 mod 3 ^ 3 = 9.
Proof.
  split; [vm_compute; reflexivity |].
  split; [cbn; lia |]. split; [cbn; lia |].
  split; reflexivity.
Qed.

(** C5, as the code has it.  [hensel_lift] validates nothing and raises no
    input error: for [p <= 0] it returns the empty list, for [p = 1] the list
    [[0]], for [n < 1] the scan of level 1 as it is, and for the zero
    polynomial every residue [0 .. p-1]. *)
Theorem hensel_lift_no_validation (f : poly) (p n : Z) :
  (p <= 0 -> hensel_lift f p n = Some [])
  /\ (p = 1 -> hensel_lift f p n = Some [0])
  /\ (n < 1 -> hensel_lift f p n = Some (scan f p))
  /\ (zero_poly f -> hensel_lift f p n = Some (Py.range 0 p)).
Proof.
  rewrite hensel_lift_working. unfold working. repeat split.
  - intros Hp. unfold scan. rewrite (range_empty 0 p) by lia.
    apply lift_levels_nil.
  - intros ->. unfold scan. change (Py.range 0 1) with [0].
    cbn [filter]. rewrite Z.mod_1_r. cbn [Z.eqb].
    apply lift_levels_mod_1, range_from_1.
  - intros Hn. now rewrite (range_empty 1 n) by lia.
  - intros Hz. rewrite lift_levels_zero by exact Hz. f_equal.
    now apply scan_zero.
Qed.

Lemma hensel_lift_no_validation_witness :
  hensel_lift [0; 1] 0 2 = Some []
  /\ hensel_lift [0; 1] 1 2 = Some [0]
  /\ hensel_lift [0; 1] 3 0 = Some (scan [0; 1] 3)
  /\ hensel_lift [0; 0] 3 2 = Some (Py.range 0 3).
Proof.
  split; [apply (proj1 (hensel_lift_no_validation [0; 1] 0 2)); lia |].
  split;
    [apply (proj1 (proj2 (hensel_lift_no_validation [0; 1] 1 2))); reflexivity |].
  split;
    [apply (proj1 (proj2 (proj2 (hensel_lift_no_validation [0; 1] 3 0)))); lia |].
  apply (proj2 (proj2 (proj2 (hensel_lift_no_validation [0; 0] 3 2)))).
  repeat constructor.
Defined.

(** C5 fails as stated: with [p = 1], with [n = 0] and with the zero
    polynomial a list is returned and nothing is raised. *)
Lemma hensel_lift_no_validation_cex :
  1 < 2 /\ hensel_lift [0; 1] 1 3 = Some [0]
  /\ 0 < 1 /\ hensel_lift [0; 1] 3 0 = Some [0]
  /\ zero_poly [] /\ hensel_lift [] 3 2 = Some [0; 1; 2].
Proof.
  split; [lia |]. split; [vm_compute; reflexivity |].
  split; [lia |]. split; [vm_compute; reflexivity |].
  split; [constructor | vm_compute; reflexivity].
Qed.

(** C7.  For a prime [p] and [n >= 1] no inverse error arises and
    [hensel_lift] returns a list: the branch for [f'(s) mod p = 0] ends
    without asking for an inverse (which would not exist), and whenever
    [f'(s) mod p <> 0] the inverse asked for exists. *)
Theorem inverse_exists_when_requested (f : poly) (p n : Z) :
  Z.prime p -> 1 <= n ->
  (exists sols, hensel_lift f p n = Some sols)
  /\ Py.pow_inv 0 p = None
  /\ (forall i s new_sols,
        subs (diff f) s mod p = 0 ->
        lift_body f p i s new_sols = Some new_sols
        \/ lift_body f p i s new_sols = Some (new_sols ++ [s]))
  /\ (forall s,
        subs (diff f) s mod p <> 0 ->
        exists inv,
          Py.pow_inv (subs (diff f) s mod p) p = Some inv
          /\ (inv * (subs (diff f) s mod p)) mod p = 1).
Proof.
  intros Hp Hn. pose proof (Z.prime_ge_2 p Hp) as Hp2. repeat split.
  - destruct (working_inv f p Hp n Hn) as [w [Hw _]].
    exists w. now rewrite hensel_lift_working.
  - unfold Py.pow_inv. rewrite Z.gcd_0_l, Z.abs_eq by lia.
    destruct (Z.eqb_spec p 1); [lia | reflexivity].
  - intros i s new_sols Hd. unfold lift_body. rewrite Hd. cbn [Z.eqb negb].
    destruct (_ =? 0); [now right | now left].
  - intros s Hd. destruct (pow_inv_prime p Hp _ Hd) as [E Hone].
    exists (Z.invmod (subs (diff f) s) p). split; [exact E |].
    rewrite Z.mul_mod_idemp_r by lia. exact Hone.
Qed.

Lemma inverse_exists_when_requested_witness :
  Z.prime 3 /\ 1 <= 3 /\ exists sols, hensel_lift x2_minus_1 3 3 = Some sols.
Proof.
  split; [exact Z.prime_3 |]. split; [lia |].
  apply (inverse_exists_when_requested x2_minus_1 3 3); [exact Z.prime_3 | lia].
Defined.

(** The binary64 values used for the literals are the floats nearest to the
    decimal numbers: each lies within half a unit in the last place. *)
Lemma tol_default_nearest :
  Prim2SF tol_default = S754_finite false 4722366482869645 (-72)
  /\ 2 * Z.abs (4722366482869645 * 10 ^ 6 - 2 ^ 72) < 10 ^ 6.
Proof. split; vm_compute; reflexivity. Qed.

Lemma lit_3_0000001_nearest :
  Prim2SF lit_3_0000001 = S754_finite false 6755399666235725 (-51)
  /\ 2 * Z.abs (6755399666235725 * 10 ^ 7 - 30000001 * 2 ^ 51) < 10 ^ 7.
Proof. split; vm_compute; reflexivity. Qed.

Lemma lit_3_00000001_nearest :
  Prim2SF lit_3_00000001 = S754_finite false 6755399463573742 (-51)
  /\ 2 * Z.abs (6755399463573742 * 10 ^ 8 - 300000001 * 2 ^ 51) < 10 ^ 8.
Proof. split; vm_compute; reflexivity. Qed.

(** C8, as the code has it.  [isInteger(3.0000001, 1e-6)] and
    [isInteger(3.00000001, 1e-6)] are both true (the first value lies about
    [1e-7] from 3, within the tolerance).  [check_irrational], and with it
    [isInteger], returns on every integer and every finite float, whatever
    the tolerance; on NaN and on the infinities [round] raises. *)
Theorem isInteger_examples :
  isInteger (Py.PyFloat lit_3_0000001) tol_default = Some true
  /\ isInteger (Py.PyFloat lit_3_00000001) tol_default = Some true
  /\ (forall value tol,
        finite value = true ->
        exists b, check_irrational value tol = Some b
                  /\ isInteger value tol = Some (negb b))
  /\ (forall value tol,
        finite value = false ->
        check_irrational value tol = None /\ isInteger value tol = None).
Proof.
  split; [vm_compute; reflexivity |].
  split; [vm_compute; reflexivity |].
  split; intros value tol Hfin.
  - destruct value as [z | x].
    + eexists. split; reflexivity.
    + unfold isInteger, check_irrational, Py.round. unfold finite in Hfin.
      destruct (Prim2SF x); try discriminate Hfin;
        eexists; split; reflexivity.
  - destruct value as [z | x]; [discriminate Hfin |].
    unfold isInteger, check_irrational, Py.round. unfold finite in Hfin.
    destruct (Prim2SF x); try discriminate Hfin; split; reflexivity.
Qed.

Lemma isInteger_examples_witness :
  finite (Py.PyFloat 2.5) = true
  /\ (exists b, check_irrational (Py.PyFloat 2.5) tol_default = Some b
                /\ isInteger (Py.PyFloat 2.5) tol_default = Some (negb b))
  /\ finite (Py.PyFloat infinity) = false
  /\ isInteger (Py.PyFloat infinity) tol_default = None.
Proof.
  split; [vm_compute; reflexivity |].
  split;
    [apply (proj1 (proj2 (proj2 isInteger_examples)) (Py.PyFloat 2.5) tol_default);
     vm_compute; reflexivity |].
  split; [vm_compute; reflexivity |].
  apply (proj2 (proj2 (proj2 isInteger_examples)) (Py.PyFloat infinity) tol_default).
  vm_compute; reflexivity.
Defined.

(** C8 fails as stated: [isInteger(3.0000001, 1e-6)] is true, not false,
    and on NaN the function raises instead of returning. *)
Lemma isInteger_examples_cex :
  isInteger (Py.PyFloat lit_3_0000001) tol_default = Some true
  /\ isInteger (Py.PyFloat lit_3_0000001) tol_default <> Some false
  /\ isInteger (Py.PyFloat nan) tol_default = None.
Proof.
  split; [vm_compute; reflexivity |].
  split; [vm_compute; discriminate |].
  vm_compute; reflexivity.
Qed.

(** C9.  For a prime [p] and [n >= 1] the list returned by [hensel_lift]
    has no duplicates, and neither has the working list of any level
    [1 <= i <= n]. *)
Theorem hensel_lift_NoDup (f : poly) (p n : Z) :
  Z.prime p -> 1 <= n ->
  (exists sols, hensel_lift f p n = Some sols /\ NoDup sols)
  /\ (forall i, 1 <= i <= n ->
      exists w, working f p i = Some w /\ NoDup w).
Proof.
  intros Hp Hn. split.
  - destruct (working_inv f p Hp n Hn) as [w [Hw [_ Hnd]]].
    exists w. now rewrite hensel_lift_working.
  - intros i Hi.
    destruct (working_inv f p Hp i) as [w [Hw [_ Hnd]]]; [lia |].
    now exists w.
Qed.

Lemma hensel_lift_NoDup_witness :
  Z.prime 3 /\ 1 <= 3 /\
  exists sols, hensel_lift x2_minus_1 3 3 = Some sols /\ NoDup sols.
Proof.
  split; [exact Z.prime_3 |]. split; [lia |].
  apply (hensel_lift_NoDup x2_minus_1 3 3); [exact Z.prime_3 | lia].
Defined.

(** ** Further properties of the lifter: completeness and its limits *)

Section Completeness.

Variable f : poly.
Variable p : Z.
Hypothesis p_prime : Z.prime p.

Let p_ge_2 : 2 <= p := Z.prime_ge_2 p p_prime.

Lemma Forall2_lifts_In (i : Z) (sols : list Z) (ls : list (list Z)) (s : Z) :
  Forall2 (lifts f p i) sols ls -> In s sols ->
  exists l, In l ls /\ lifts f p i s l.
Proof.
  induction 1 as [|s' l sols ls Hl _ IH]; intros Hin; [contradiction |].
  destruct Hin as [-> | Hin].
  - exists l. split; [now left | exact Hl].
  - destruct (IH Hin) as [l' [Hl' Hs]]. exists l'. split; [now right | exact Hs].
Qed.

Lemma lifts_concat_origin (i : Z) (sols : list Z) (ls : list (list Z)) (r : Z) :
  Forall2 (lifts f p i) sols ls -> In r (concat ls) ->
  exists s l, In s sols /\ lifts f p i s l /\ In r l.
Proof.
  induction 1 as [|s l sols ls Hl _ IH]; cbn [concat]; intros Hin;
    [contradiction |].
  apply in_app_or in Hin. destruct Hin as [Hin | Hin].
  - exists s, l. split; [now left | now split].
  - destruct (IH Hin) as [s' [l' [Hs' Hl']]].
    exists s', l'. split; [now right | exact Hl'].
Qed.

(** Above a residue on which the derivative does not vanish there is at most
    one root of the next level. *)
Lemma regular_lift_unique (i r1 r2 : Z) :
  1 <= i ->
  root_at f p (i + 1) r1 -> root_at f p (i + 1) r2 ->
  r1 mod p ^ i = r2 mod p ^ i ->
  subs (diff f) r2 mod p <> 0 ->
  r1 = r2.
Proof.
  intros Hi [H1 R1] [H2 R2] Hcong Hd.
  assert (HP : 0 < p ^ i) by (apply pow_pos; lia).
  rewrite (pow_succ p) in * by lia.
  set (P := p ^ i) in *.
  assert (HPp : exists P', P = p * P').
  { exists (p ^ (i - 1)). unfold P.
    rewrite <- (Z.pow_1_r p) at 2. rewrite <- Z.pow_add_r by lia.
    f_equal. lia. }
  destruct HPp as [P' HP'].
  apply Z.cong_iff_ex in Hcong. destruct Hcong as [k Hk].
  assert (Hklt : - p < k < p) by nia.
  destruct (subs_taylor f r2 (k * P)) as [q Hq].
  replace (r2 + k * P) with r1 in Hq by lia.
  apply Z.mod_divide in H1; [| nia]. destruct H1 as [a Ha].
  apply Z.mod_divide in H2; [| nia]. destruct H2 as [b Hb].
  set (D := subs (diff f) r2) in *.
  assert (Hdiv : (p | k * D)).
  { exists (a - b - q * k * k * P').
    apply (Z.mul_reg_l _ _ P); [lia |].
    replace (P * (k * D)) with (D * (k * P)) by ring.
    replace (D * (k * P)) with (subs f r1 - subs f r2 - q * (k * P * (k * P)))
      by (rewrite Hq; ring).
    rewrite Ha, Hb. rewrite HP' at 3. ring. }
  apply Z.divide_prime_mul in Hdiv; [| exact p_prime].
  destruct Hdiv as [Hdiv | Hdiv].
  - destruct Hdiv as [c Hc]. assert (c = 0) by nia. subst c. lia.
  - exfalso. apply Hd. now apply Z.mod0_divide.
Qed.

(** A root of level [i + 1] with non-vanishing derivative is what the loop
    appends for its reduction modulo [p^i]. *)
Lemma lifts_reach (i r : Z) (sols : list Z) (ls : list (list Z)) :
  1 <= i ->
  Forall (root_at f p i) sols -> Forall2 (lifts f p i) sols ls ->
  root_at f p (i + 1) r -> subs (diff f) r mod p <> 0 ->
  In (r mod p ^ i) sols -> In r (concat ls).
Proof.
  intros Hi Hall H2 Hr Hd Hin.
  destruct (Forall2_lifts_In i sols ls _ H2 Hin) as [l [Hl Hlift]].
  assert (Hds : subs (diff f) (r mod p ^ i) mod p = subs (diff f) r mod p).
  { apply subs_cong. now apply mod_pow_1. }
  apply in_concat. exists l. split; [exact Hl |].
  destruct Hlift as [r' Hd' Hr' Hroot | Hd' Hroot | Hd' Hz].
  - left. symmetry.
    apply (regular_lift_unique i r r' Hi Hr Hroot).
    + now symmetry.
    + replace (subs (diff f) r' mod p) with (subs (diff f) r mod p); trivial.
      apply subs_cong.
      rewrite <- (mod_pow_1 p p_ge_2 r i Hi), <- (mod_pow_1 p p_ge_2 r' i Hi).
      now rewrite Hr'.
  - congruence.
  - congruence.
Qed.

(** The reduction of a root is a root of the lower level. *)
Lemma root_at_reduce (i r : Z) :
  0 <= i -> root_at f p (i + 1) r -> root_at f p i (r mod p ^ i).
Proof.
  intros Hi [Hz _].
  assert (HP : 0 < p ^ i) by (apply pow_pos; lia).
  split; [| apply Z.mod_pos_bound; lia].
  rewrite (subs_cong f (r mod p ^ i) r) by apply Zmod_mod.
  rewrite <- (mod_pow_mod p p_ge_2 _ (i + 1) i) by lia.
  rewrite Hz. apply Zmod_0_l.
Qed.

Lemma working_complete_nat (k : nat) : forall r,
  root_at f p (1 + Z.of_nat k) r -> subs (diff f) r mod p <> 0 ->
  exists w, working f p (1 + Z.of_nat k) = Some w /\ In r w.
Proof.
  induction k as [|k IH]; intros r Hr Hd.
  - exists (scan f p). split; [reflexivity |].
    destruct Hr as [Hz Hrange]. rewrite Z.pow_1_r in *.
    apply scan_In. now split.
  - replace (1 + Z.of_nat (S k)) with (1 + Z.of_nat k + 1) in * by lia.
    set (i := 1 + Z.of_nat k) in *.
    assert (Hi : 1 <= i) by lia.
    assert (Hs : root_at f p i (r mod p ^ i)) by (apply root_at_reduce; [lia | trivial]).
    assert (Hds : subs (diff f) (r mod p ^ i) mod p <> 0).
    { rewrite (subs_cong (diff f) (r mod p ^ i) r); trivial.
      now apply mod_pow_1. }
    destruct (IH _ Hs Hds) as [w [Hw Hin]].
    destruct (working_inv f p p_prime i Hi) as [w' [Hw' [Hall _]]].
    rewrite Hw in Hw'. injection Hw' as <-.
    destruct (working_step f p p_prime i w Hi Hw Hall) as [ls [E H2]].
    exists (concat ls). split; [exact E |].
    now apply (lifts_reach i r w ls).
Qed.

End Completeness.

Section Limits.

Variable f : poly.
Variable p : Z.
Hypothesis p_prime : Z.prime p.

Let p_ge_2 : 2 <= p := Z.prime_ge_2 p p_prime.

Lemma lifts_concat_length (i : Z) (sols : list Z) (ls : list (list Z)) :
  Forall2 (lifts f p i) sols ls ->
  (length (concat ls) <= length sols)%nat.
Proof.
  induction 1 as [|s l sols ls Hl _ IH]; cbn [concat length]; [lia |].
  rewrite length_app. destruct Hl; cbn [length]; lia.
Qed.

Lemma lifts_concat_length_regular (i : Z) (sols : list Z) (ls : list (list Z)) :
  Forall2 (lifts f p i) sols ls ->
  (forall s, In s sols -> subs (diff f) s mod p <> 0) ->
  length (concat ls) = length sols.
Proof.
  induction 1 as [|s l sols ls Hl _ IH]; cbn [concat length]; intros Hreg;
    [reflexivity |].
  rewrite length_app, IH by (intros s' Hs'; apply Hreg; now right).
  assert (Hs : subs (diff f) s mod p <> 0) by (apply Hreg; now left).
  destruct Hl; cbn [length]; [reflexivity | contradiction | contradiction].
Qed.

Lemma scan_length : Z.of_nat (length (scan f p)) <= p.
Proof.
  unfold scan. pose proof (filter_length_le
    (fun k => subs f k mod p =? 0) (Py.range 0 p)) as H.
  unfold Py.range in *. rewrite length_map, length_seq in H. lia.
Qed.

(** The working list never grows. *)
Lemma working_length_nat (k : nat) :
  exists w, working f p (1 + Z.of_nat k) = Some w
            /\ (length w <= length (scan f p))%nat.
Proof.
  induction k as [|k [w [Hw Hlen]]].
  - exists (scan f p). split; [reflexivity | lia].
  - replace (1 + Z.of_nat (S k)) with (1 + Z.of_nat k + 1) by lia.
    destruct (working_inv f p p_prime (1 + Z.of_nat k)) as [w' [Hw' [Hall _]]];
      [lia |].
    rewrite Hw in Hw'. injection Hw' as <-.
    destruct (working_step f p p_prime (1 + Z.of_nat k) w) as [ls [E H2]];
      [lia | trivial | trivial |].
    exists (concat ls). split; [exact E |].
    pose proof (lifts_concat_length _ _ _ H2). lia.
Qed.

(** A residue on which the derivative vanishes is never moved: if it is in a
    working list, it has been there since the scan. *)
Lemma working_singular_nat (k : nat) : forall w r,
  working f p (1 + Z.of_nat k) = Some w -> In r w ->
  subs (diff f) r mod p = 0 -> In r (scan f p).
Proof.
  induction k as [|k IH]; intros w r Hw Hin Hd.
  - rewrite working_1 in Hw. now injection Hw as <-.
  - replace (1 + Z.of_nat (S k)) with (1 + Z.of_nat k + 1) in Hw by lia.
    set (i := 1 + Z.of_nat k) in *.
    assert (Hi : 1 <= i) by lia.
    destruct (working_inv f p p_prime i Hi) as [w' [Hw' [Hall _]]].
    destruct (working_step f p p_prime i w' Hi Hw' Hall) as [ls [E H2]].
    rewrite E in Hw. injection Hw as <-.
    destruct (lifts_concat_origin f p i w' ls r H2 Hin) as [s [l [Hs [Hl Hr]]]].
    destruct Hl as [r' Hd' Hr' Hroot | Hd' Hroot | Hd' Hz]; cbn in Hr.
    + destruct Hr as [<- | []]. exfalso. apply Hd'. rewrite <- Hd.
      apply subs_cong. rewrite <- Hr'. now apply mod_pow_1.
    + destruct Hr as [<- | []]. now apply (IH w').
    + contradiction.
Qed.

(** A root of some level reduces to a root found by the scan. *)
Lemma root_at_scan (i r : Z) :
  1 <= i -> root_at f p i r -> In (r mod p) (scan f p).
Proof.
  intros Hi [Hz _]. apply scan_In. split; [apply Z.mod_pos_bound; lia |].
  rewrite (subs_cong f (r mod p) r) by apply Zmod_mod.
  rewrite <- (mod_pow_1 p p_ge_2 _ i Hi), Hz. apply Zmod_0_l.
Qed.

Hypothesis all_regular :
  forall s, In s (scan f p) -> subs (diff f) s mod p <> 0.

Lemma root_regular (i r : Z) :
  1 <= i -> root_at f p i r -> subs (diff f) r mod p <> 0.
Proof.
  intros Hi Hr.
  rewrite <- (subs_cong (diff f) (r mod p) r) by apply Zmod_mod.
  apply all_regular. now apply (root_at_scan i).
Qed.

(** When the derivative vanishes on no root modulo [p], every level has as
    many residues as the scan. *)
Lemma working_regular_length_nat (k : nat) :
  exists w, working f p (1 + Z.of_nat k) = Some w
            /\ length w = length (scan f p).
Proof.
  induction k as [|k [w [Hw Hlen]]].
  - exists (scan f p). now split.
  - replace (1 + Z.of_nat (S k)) with (1 + Z.of_nat k + 1) by lia.
    set (i := 1 + Z.of_nat k) in *.
    assert (Hi : 1 <= i) by lia.
    destruct (working_inv f p p_prime i Hi) as [w' [Hw' [Hall _]]].
    rewrite Hw in Hw'. injection Hw' as <-.
    destruct (working_step f p p_prime i w Hi Hw Hall) as [ls [E H2]].
    exists (concat ls). split; [exact E |].
    rewrite <- Hlen. apply (lifts_concat_length_regular i); trivial.
    intros s Hs. apply (root_regular i); trivial.
    rewrite Forall_forall in Hall. now apply Hall.
Qed.

End Limits.

(** Every regular root of level [n] is in the working list of level [n]. *)
Lemma working_complete (f : poly) (p n r : Z) :
  Z.prime p -> 1 <= n ->
  0 <= r < p ^ n -> subs f r mod p ^ n = 0 ->
  subs (diff f) r mod p <> 0 ->
  exists w, working f p n = Some w /\ In r w.
Proof.
  intros Hp Hn Hrange Hz Hd.
  destruct (working_complete_nat f p Hp (Z.to_nat (n - 1)) r) as [w [Hw Hin]].
  - replace (1 + Z.of_nat (Z.to_nat (n - 1))) with n by lia. now split.
  - exact Hd.
  - replace (1 + Z.of_nat (Z.to_nat (n - 1))) with n in Hw by lia.
    now exists w.
Qed.

(** Without repeated roots modulo [p] the working list of level [n] holds
    exactly the roots of that level, as many as the scan found. *)
Lemma working_exact_regular (f : poly) (p n : Z) :
  Z.prime p -> 1 <= n ->
  (forall s, In s (scan f p) -> subs (diff f) s mod p <> 0) ->
  exists w,
    working f p n = Some w
    /\ (forall r, In r w <-> 0 <= r < p ^ n /\ subs f r mod p ^ n = 0)
    /\ length w = length (scan f p).
Proof.
  intros Hp Hn Hreg.
  destruct (working_inv f p Hp n Hn) as [w [Hw [Hall _]]].
  exists w. split; [exact Hw |]. split.
  - intros r. split.
    + intros Hin. rewrite Forall_forall in Hall.
      destruct (Hall r Hin). now split.
    + intros [Hrange Hz].
      assert (Hd : subs (diff f) r mod p <> 0).
      { apply (root_regular f p Hp Hreg n); [exact Hn | now split]. }
      destruct (working_complete f p n r Hp Hn Hrange Hz Hd) as [w' [Hw' Hin]].
      rewrite Hw in Hw'. now injection Hw' as <-.
  - destruct (working_regular_length_nat f p Hp Hreg (Z.to_nat (n - 1)))
      as [w' [Hw' Hlen]].
    replace (1 + Z.of_nat (Z.to_nat (n - 1))) with n in Hw' by lia.
    rewrite Hw in Hw'. now injection Hw' as <-.
Qed.

(** A residue of a working list on which the derivative vanishes lies
    below [p]. *)
Lemma working_singular (f : poly) (p n : Z) :
  Z.prime p -> 1 <= n ->
  exists w,
    working f p n = Some w
    /\ forall r, In r w -> subs (diff f) r mod p = 0 ->
                 0 <= r < p /\ In r (scan f p).
Proof.
  intros Hp Hn.
  destruct (working_inv f p Hp n Hn) as [w [Hw _]].
  exists w. split; [exact Hw |].
  intros r Hin Hd.
  assert (Hs : In r (scan f p)).
  { apply (working_singular_nat f p Hp (Z.to_nat (n - 1)) w); trivial.
    now replace (1 + Z.of_nat (Z.to_nat (n - 1))) with n by lia. }
  split; [| exact Hs]. apply scan_In in Hs. tauto.
Qed.

Lemma working_size (f : poly) (p n : Z) :
  Z.prime p -> 1 <= n ->
  exists w,
    working f p n = Some w
    /\ (length w <= length (scan f p))%nat
    /\ Z.of_nat (length w) <= p.
Proof.
  intros Hp Hn.
  destruct (working_length_nat f p Hp (Z.to_nat (n - 1))) as [w [Hw Hlen]].
  replace (1 + Z.of_nat (Z.to_nat (n - 1))) with n in Hw by lia.
  exists w. split; [exact Hw |].
  split; [exact Hlen |]. pose proof (scan_length f p Hp). lia.
Qed.

(** X1.  Completeness on regular roots: for a prime [p] and [n >= 1], every
    residue [r] below [p^n] with [f(r) = 0] modulo [p^n] and
    [f'(r) <> 0] modulo [p] is in the list [hensel_lift f p n] returns. *)
Theorem hensel_lift_complete_regular (f : poly) (p n r : Z) :
  Z.prime p -> 1 <= n ->
  0 <= r < p ^ n -> subs f r mod p ^ n = 0 ->
  subs (diff f) r mod p <> 0 ->
  exists sols, hensel_lift f p n = Some sols /\ In r sols.
Proof.
  intros Hp Hn Hrange Hz Hd. rewrite hensel_lift_working.
  now apply working_complete.
Qed.

Lemma hensel_lift_complete_regular_witness :
  exists sols, hensel_lift x2_minus_1 3 3 = Some sols /\ In 26 sols.
Proof.
  apply (hensel_lift_complete_regular x2_minus_1 3 3 26 Z.prime_3).
  - lia.
  - vm_compute. split; [discriminate | reflexivity].
  - vm_compute. reflexivity.
  - vm_compute. discriminate.
Defined.

(** X2.  Exactness without repeated roots: for a prime [p] and [n >= 1], if
    [f'] vanishes modulo [p] on no root found by the scan, the list returned
    holds exactly the roots of [f] modulo [p^n] below [p^n], and as many of
    them as there are roots modulo [p]. *)
Theorem hensel_lift_exact_regular (f : poly) (p n : Z) :
  Z.prime p -> 1 <= n ->
  (forall s, In s (scan f p) -> subs (diff f) s mod p <> 0) ->
  exists sols,
    hensel_lift f p n = Some sols
    /\ (forall r, In r sols <-> 0 <= r < p ^ n /\ subs f r mod p ^ n = 0)
    /\ length sols = length (scan f p).
Proof.
  intros Hp Hn Hreg. rewrite hensel_lift_working.
  now apply working_exact_regular.
Qed.

Lemma hensel_lift_exact_regular_witness :
  exists sols,
    hensel_lift x2_minus_1 3 3 = Some sols
    /\ (forall r, In r sols <->
                  0 <= r < 3 ^ 3 /\ subs x2_minus_1 r mod 3 ^ 3 = 0)
    /\ length sols = length (scan x2_minus_1 3).
Proof.
  apply (hensel_lift_exact_regular x2_minus_1 3 3 Z.prime_3); [lia |].
  intros s Hs. vm_compute in Hs.
  destruct Hs as [<- | [<- | []]]; vm_compute; discriminate.
Defined.

(** X3.  Singular residues are never lifted: for a prime [p] and [n >= 1],
    a returned residue [r] with [f'(r) = 0] modulo [p] is one of the
    residues below [p] found by the scan. *)
Theorem hensel_lift_singular_unmoved (f : poly) (p n : Z) :
  Z.prime p -> 1 <= n ->
  exists sols,
    hensel_lift f p n = Some sols
    /\ forall r, In r sols -> subs (diff f) r mod p = 0 ->
                 0 <= r < p /\ In r (scan f p).
Proof.
  intros Hp Hn. rewrite hensel_lift_working. now apply working_singular.
Qed.

Lemma hensel_lift_singular_unmoved_witness :
  exists sols,
    hensel_lift x_squared 3 4 = Some sols
    /\ forall r, In r sols -> subs (diff x_squared) r mod 3 = 0 ->
                 0 <= r < 3 /\ In r (scan x_squared 3).
Proof.
  apply (hensel_lift_singular_unmoved x_squared 3 4 Z.prime_3). lia.
Defined.

(** X4.  Roots above a singular residue are missed: for every prime [p] and
    [n >= 2], [p^(n-1)] is a root of [x^2] modulo [p^n] below [p^n], and
    [hensel_lift] does not return it. *)
Theorem hensel_lift_misses_singular_roots (p n : Z) :
  Z.prime p -> 2 <= n ->
  0 <= p ^ (n - 1) < p ^ n
  /\ subs x_squared (p ^ (n - 1)) mod p ^ n = 0
  /\ exists sols,
       hensel_lift x_squared p n = Some sols /\ ~ In (p ^ (n - 1)) sols.
Proof.
  intros Hp Hn. pose proof (Z.prime_ge_2 p Hp) as Hp2.
  assert (HP : 0 < p ^ (n - 1)) by (apply pow_pos; lia).
  assert (Hpn : p ^ n = p * p ^ (n - 1)).
  { replace n with (n - 1 + 1) at 1 by lia. apply pow_succ; lia. }
  assert (Hge : p <= p ^ (n - 1)).
  { replace (n - 1) with (n - 2 + 1) by lia. rewrite pow_succ by lia.
    assert (0 < p ^ (n - 2)) by (apply pow_pos; lia). nia. }
  split; [nia |]. split.
  - apply Z.mod0_divide. exists (p ^ (n - 2)).
    unfold x_squared. cbn [subs]. rewrite Hpn.
    replace (n - 1) with (n - 2 + 1) by lia. rewrite pow_succ by lia. ring.
  - destruct (working_singular x_squared p n Hp) as [sols [E Hs]]; [lia |].
    exists sols. split; [now rewrite hensel_lift_working |]. intros Hin.
    assert (Hd : subs (diff x_squared) (p ^ (n - 1)) mod p = 0).
    { apply Z.mod0_divide. exists (2 * p ^ (n - 2)).
      unfold x_squared, diff. cbn [tl diff_from subs].
      replace (n - 1) with (n - 2 + 1) by lia. rewrite pow_succ by lia. ring. }
    destruct (Hs _ Hin Hd) as [Hlt _]. lia.
Qed.

Lemma hensel_lift_misses_singular_roots_witness :
  0 <= 3 ^ (2 - 1) < 3 ^ 2
  /\ subs x_squared (3 ^ (2 - 1)) mod 3 ^ 2 = 0
  /\ exists sols,
       hensel_lift x_squared 3 2 = Some sols /\ ~ In (3 ^ (2 - 1)) sols.
Proof.
  apply (hensel_lift_misses_singular_roots 3 2 Z.prime_3). lia.
Defined.

(** X5.  The number of residues never grows: for a prime [p] and [n >= 1]
    the list returned is no longer than the scan, hence holds at most [p]
    residues. *)
Theorem hensel_lift_size (f : poly) (p n : Z) :
  Z.prime p -> 1 <= n ->
  exists sols,
    hensel_lift f p n = Some sols
    /\ (length sols <= length (scan f p))%nat
    /\ Z.of_nat (length sols) <= p.
Proof.
  intros Hp Hn. rewrite hensel_lift_working. now apply working_size.
Qed.

Lemma hensel_lift_size_witness :
  exists sols,
    hensel_lift x3_minus_3 3 5 = Some sols
    /\ (length sols <= length (scan x3_minus_3 3))%nat
    /\ Z.of_nat (length sols) <= 3.
Proof.
  apply (hensel_lift_size x3_minus_3 3 5 Z.prime_3). lia.
Defined.

(** X6.  What the driver reports: for a prime [p] and [n >= 1], it passes
    when [f] has no root modulo [p], and it ends in the failed assertion
    when [f] has a root modulo [p] on which [f'] does not vanish. *)
Theorem driver_outcome (f : poly) (p n : Z) :
  Z.prime p -> 1 <= n ->
  (scan f p = [] -> driver f p n = Passed)
  /\ (forall s, In s (scan f p) -> subs (diff f) s mod p <> 0 ->
                driver f p n = CounterexampleFound).
Proof.
  intros Hp Hn. split.
  - intros Hscan.
    destruct (working_size f p n Hp Hn) as [sols [E [Hlen _]]].
    rewrite Hscan in Hlen. destruct sols as [|r sols]; [| cbn in Hlen; lia].
    unfold driver. now rewrite hensel_lift_working, E.
  - intros s Hs Hd. apply scan_In in Hs. destruct Hs as [_ Hs].
    destruct (working_count_nat f p Hp s (Z.to_nat (n - 1)) Hs Hd)
      as [w [Hw Hc]].
    replace (1 + Z.of_nat (Z.to_nat (n - 1))) with n in Hw by lia.
    unfold driver. rewrite hensel_lift_working, Hw, anyM_check_irrational.
    destruct w as [|r w]; [discriminate Hc | reflexivity].
Qed.

Lemma driver_outcome_witness :
  driver [1; 1; 1] 2 3 = Passed /\ driver x2_minus_1 3 3 = CounterexampleFound.
Proof.
  split.
  - apply (proj1 (driver_outcome [1; 1; 1] 2 3 Z.prime_2 ltac:(lia))).
    vm_compute. reflexivity.
  - apply (proj2 (driver_outcome x2_minus_1 3 3 Z.prime_3 ltac:(lia)) 1).
    + vm_compute. tauto.
    + vm_compute. discriminate.
Defined.

(** ** The companion script: exhaustive search and the Minkowski check *)

Section Companion.

Import Verify3adic.

Lemma subs_x3_minus_3_eq (x : Z) : subs x3_minus_3 x = x ^ 3 - 3.
Proof. unfold x3_minus_3. cbn [subs]. ring. Qed.

Lemma subs_diff_x3_minus_3_eq (x : Z) : subs (diff x3_minus_3) x = 3 * (x * x).
Proof. unfold x3_minus_3, diff. cbn [tl diff_from subs]. ring. Qed.

Lemma hensel_step_In (x0 p n x : Z) :
  0 <= n ->
  exists l, hensel_step x0 p n = Some l
            /\ (In x l <-> 0 <= x < p ^ n /\ (x ^ 3 - 3) mod p ^ n = 0).
Proof.
  intros Hn. unfold hensel_step.
  destruct (Z.ltb_spec n 0) as [Hneg | _]; [lia |].
  eexists. split; [reflexivity |].
  rewrite filter_In, range_In, Z.eqb_eq. tauto.
Qed.

(** No cube is congruent to 3 modulo 9. *)
Lemma cube_not_3_mod_9 (x e : Z) : x ^ 3 - 3 <> 9 * e.
Proof.
  intros H.
  pose proof (Z.div_mod x 3 ltac:(lia)) as Ex.
  pose proof (Z.mod_pos_bound x 3 ltac:(lia)) as Hr.
  set (q := x / 3) in *. set (r := x mod 3) in *.
  replace (x ^ 3) with (x * x * x) in H by ring.
  assert (Hc : r = 0 \/ r = 1 \/ r = 2) by lia.
  rewrite Ex in H.
  destruct Hc as [-> | [-> | ->]]; ring_simplify in H; lia.
Qed.

Lemma no_cube_root_of_3 (n x : Z) : 2 <= n -> (x ^ 3 - 3) mod 3 ^ n <> 0.
Proof.
  intros Hn Hz.
  apply Z.mod_divide in Hz; [| apply Z.pow_nonzero; lia].
  destruct Hz as [c Hc].
  apply (cube_not_3_mod_9 x (c * 3 ^ (n - 2))).
  rewrite Hc. replace n with (n - 2 + 2) at 1 by lia.
  rewrite Z.pow_add_r by lia. change (3 ^ 2) with 9. ring.
Qed.

(** On a root of [x^3 - 3] modulo a prime other than 3 the derivative does
    not vanish. *)
Lemma x3_minus_3_regular (p s : Z) :
  Z.prime p -> p <> 3 ->
  In s (scan x3_minus_3 p) -> subs (diff x3_minus_3) s mod p <> 0.
Proof.
  intros Hp Hp3 Hs Hd. pose proof (Z.prime_ge_2 p Hp) as Hp2.
  apply scan_In in Hs. destruct Hs as [_ Hz].
  rewrite subs_x3_minus_3_eq in Hz. rewrite subs_diff_x3_minus_3_eq in Hd.
  apply Z.mod_divide in Hz; [| lia]. apply Z.mod_divide in Hd; [| lia].
  assert (H3 : ~ (p | 3)).
  { intros H. apply Hp3.
    now apply (Z.divide_prime_prime p 3 Hp Z.prime_3). }
  apply Z.divide_prime_mul in Hd; [| exact Hp].
  destruct Hd as [Hd | Hd]; [contradiction |].
  apply Z.divide_prime_mul in Hd; [| exact Hp].
  assert (Hps : (p | s)) by tauto.
  apply H3. destruct Hps as [c Hc]. destruct Hz as [d Hd'].
  exists (c * s * s - d).
  replace (s ^ 3) with (s * s * s) in Hd' by ring.
  rewrite Hc in Hd' at 1. lia.
Qed.

Lemma valuation_loop_zero (fuel : nat) : forall v_3,
  valuation_loop fuel v_3 0 = None.
Proof.
  induction fuel as [|fuel IH]; intros v_3; [reflexivity |].
  cbn [valuation_loop]. change (0 mod 3 =? 0) with true.
  change (0 / 3) with 0. apply IH.
Qed.

Lemma valuation_loop_spec (fuel : nat) : forall v_3 n,
  0 < n -> n < 3 ^ Z.of_nat fuel ->
  exists v t,
    valuation_loop fuel v_3 n = Some (v_3 + v, t)
    /\ 0 <= v /\ n = 3 ^ v * t /\ t mod 3 <> 0.
Proof.
  induction fuel as [|fuel IH]; intros v_3 n Hn Hlt.
  - cbn in Hlt. lia.
  - rewrite Nat2Z.inj_succ, Z.pow_succ_r in Hlt by lia.
    cbn [valuation_loop].
    destruct (Z.eqb_spec (n mod 3) 0) as [Hz | Hnz].
    + pose proof (Z.div_mod n 3 ltac:(lia)) as En. rewrite Hz in En.
      destruct (IH (v_3 + 1) (n / 3)) as [v [t [E [Hv [Ht Hm]]]]]; [lia | lia |].
      exists (1 + v), t. rewrite E. split; [f_equal; f_equal; lia |].
      split; [lia |]. split; [| exact Hm].
      rewrite Z.pow_add_r, Z.pow_1_r by lia. lia.
    + exists 0, n. rewrite Z.add_0_r. split; [reflexivity |].
      split; [lia |]. split; [| exact Hnz]. rewrite Z.pow_0_r. lia.
Qed.

(** The counter of the loop never falls below its initial value. *)
Lemma valuation_loop_ge (fuel : nat) : forall v_3 n v t,
  valuation_loop fuel v_3 n = Some (v, t) -> v_3 <= v.
Proof.
  induction fuel as [|fuel IH]; intros v_3 n v t H; [discriminate |].
  cbn [valuation_loop] in H. destruct (n mod 3 =? 0).
  - apply IH in H. lia.
  - injection H as <- _. lia.
Qed.

Lemma inspect_matrix_never_true (fuel : nat) (m : Z * Z * Z * Z) :
  inspect_matrix fuel m <> Some true.
Proof.
  destruct m as [[[a b] c] d]. unfold inspect_matrix.
  destruct (a * d - b * c =? 0); cbn [negb]; [discriminate |].
  destruct (valuation_loop fuel 0 (Z.abs (a * d - b * c))) as [[v t]|] eqn:E;
    cbn [bind fst]; [| discriminate].
  apply valuation_loop_ge in E.
  destruct (Z.eqb_spec v 0); [discriminate |].
  destruct (Z.ltb_spec 0 v); [discriminate | lia].
Qed.

Lemma inspect_matrix_false (fuel : nat) (a b c d : Z) :
  Z.abs (a * d - b * c) < 3 ^ Z.of_nat fuel ->
  inspect_matrix fuel (a, b, c, d) = Some false.
Proof.
  intros Hlt. unfold inspect_matrix.
  destruct (Z.eqb_spec (a * d - b * c) 0) as [Hz | Hnz]; cbn [negb];
    [reflexivity |].
  destruct (valuation_loop_spec fuel 0 (Z.abs (a * d - b * c)))
    as [v [t [E [Hv _]]]]; [lia | exact Hlt |].
  rewrite E. cbn [bind fst]. rewrite Z.add_0_l.
  destruct (Z.eqb_spec v 0); [reflexivity |].
  destruct (Z.ltb_spec 0 v); [reflexivity | lia].
Qed.

Lemma anyM_all_false {A} (c : A -> option bool) (l : list A) :
  (forall a, In a l -> c a = Some false) -> Py.anyM c l = Some false.
Proof.
  induction l as [|a l IH]; intros H; [reflexivity |].
  cbn [Py.anyM]. rewrite (H a) by now left.
  cbn [bind]. apply IH. intros a' Ha'. apply H. now right.
Qed.

Lemma anyM_never_true {A} (c : A -> option bool) (l : list A) :
  (forall a, c a <> Some true) -> Py.anyM c l <> Some true.
Proof.
  intros H. induction l as [|a l IH]; [discriminate |].
  cbn [Py.anyM]. destruct (c a) as [[|]|] eqn:E; cbn [bind];
    [now apply H in E | exact IH | discriminate].
Qed.

Lemma matrices_In (max_search a b c d : Z) :
  In (a, b, c, d) (matrices max_search) ->
  1 <= a < max_search /\ 1 <= b < max_search
  /\ 1 <= c < max_search /\ 1 <= d < max_search.
Proof.
  unfold matrices. intros H.
  apply in_flat_map in H. destruct H as [a' [Ha H]].
  apply in_flat_map in H. destruct H as [b' [Hb H]].
  apply in_flat_map in H. destruct H as [c' [Hc H]].
  apply in_map_iff in H. destruct H as [d' [E Hd]].
  injection E as -> -> -> ->.
  rewrite range_In in Ha, Hb, Hc, Hd. tauto.
Qed.

End Companion.

Lemma hensel_step_3_empty (x0 n : Z) :
  2 <= n -> Verify3adic.hensel_step x0 3 n = Some [].
Proof.
  intros Hn. unfold Verify3adic.hensel_step.
  destruct (Z.ltb_spec n 0) as [Hneg | _]; [lia |].
  unfold ret. f_equal. apply filter_none. intros x _.
  apply Z.eqb_neq. now apply no_cube_root_of_3.
Qed.

(** X7.  The exhaustive search of [simulate_hensel_lifting] for [p = 3]:
    whatever [x0], it finds the residue 0 at [n = 1] and nothing at any
    [n >= 2]; a negative [n] raises. *)
Theorem hensel_step_mod_3 (x0 n : Z) :
  Verify3adic.hensel_step x0 3 1 = Some [0]
  /\ (2 <= n -> Verify3adic.hensel_step x0 3 n = Some [])
  /\ (n < 0 -> Verify3adic.hensel_step x0 3 n = None).
Proof.
  split; [reflexivity |]. split; intros Hn.
  - now apply hensel_step_3_empty.
  - unfold Verify3adic.hensel_step.
    destruct (Z.ltb_spec n 0) as [_ | Hpos]; [reflexivity | lia].
Qed.

Lemma hensel_step_mod_3_witness :
  Verify3adic.hensel_step 0 3 3 = Some []
  /\ Verify3adic.hensel_step 0 3 (-1) = None.
Proof.
  split.
  - apply (proj1 (proj2 (hensel_step_mod_3 0 3))). lia.
  - apply (proj2 (proj2 (hensel_step_mod_3 0 (-1)))). lia.
Defined.

(** X8.  The two scripts agree on [x^3 - 3]: for every prime [p] and
    [n >= 1], [hensel_lift] returns a list with exactly the residues that
    the exhaustive search [hensel_step] finds modulo [p^n]. *)
Theorem hensel_lift_agrees_with_search (p n x0 : Z) :
  Z.prime p -> 1 <= n ->
  exists sols found,
    hensel_lift x3_minus_3 p n = Some sols
    /\ Verify3adic.hensel_step x0 p n = Some found
    /\ forall r, In r sols <-> In r found.
Proof.
  intros Hp Hn.
  destruct (Z.eq_dec p 3) as [-> | Hp3].
  - destruct (Z.eq_dec n 1) as [-> | Hn1].
    + exists [0], [0]. repeat split; trivial.
    + destruct (working_inv x3_minus_3 3 Hp n Hn) as [sols [E [Hs _]]].
      exists sols, []. split; [now rewrite hensel_lift_working |].
      split; [apply hensel_step_3_empty; lia |].
      intros r. split; [| contradiction].
      intros Hin. rewrite Forall_forall in Hs. destruct (Hs r Hin) as [Hz _].
      rewrite subs_x3_minus_3_eq in Hz.
      now apply (no_cube_root_of_3 n r) in Hz; [| lia].
  - destruct (working_exact_regular x3_minus_3 p n Hp Hn) as [sols [E [Hs _]]].
    { intros s. now apply x3_minus_3_regular. }
    destruct (hensel_step_In x0 p n 0) as [found [E' _]]; [lia |].
    exists sols, found. split; [now rewrite hensel_lift_working |].
    split; [exact E' |].
    intros r. rewrite Hs.
    destruct (hensel_step_In x0 p n r) as [found' [E'' Hf]]; [lia |].
    rewrite E' in E''. injection E'' as <-.
    rewrite Hf, subs_x3_minus_3_eq. tauto.
Qed.

Lemma hensel_lift_agrees_with_search_witness :
  exists sols found,
    hensel_lift x3_minus_3 2 3 = Some sols
    /\ Verify3adic.hensel_step 0 2 3 = Some found
    /\ forall r, In r sols <-> In r found.
Proof.
  apply (hensel_lift_agrees_with_search 2 3 0 Z.prime_2). lia.
Defined.

(** X9.  The loop [while temp_det % 3 == 0] computes the 3-adic valuation:
    started on a positive [n] with [v_3 = 0] it ends, within any number of
    tests exceeding the base-3 length of [n], with [n = 3^v_3 * temp_det],
    [v_3 >= 0] and [temp_det] not divisible by 3.  Started on 0 it never
    ends, whatever the number of tests allowed. *)
Theorem valuation_loop_correct (fuel : nat) (n : Z) :
  (0 < n -> n < 3 ^ Z.of_nat fuel ->
   exists v_3 temp_det,
     Verify3adic.valuation_loop fuel 0 n = Some (v_3, temp_det)
     /\ 0 <= v_3 /\ n = 3 ^ v_3 * temp_det /\ temp_det mod 3 <> 0)
  /\ Verify3adic.valuation_loop fuel 0 0 = None.
Proof.
  split; [| apply valuation_loop_zero].
  intros Hn Hlt.
  destruct (valuation_loop_spec fuel 0 n Hn Hlt) as [v [t [E H]]].
  exists v, t. now rewrite Z.add_0_l in E.
Qed.

Lemma valuation_loop_correct_witness :
  exists v_3 temp_det,
    Verify3adic.valuation_loop 5 0 54 = Some (v_3, temp_det)
    /\ 0 <= v_3 /\ 54 = 3 ^ v_3 * temp_det /\ temp_det mod 3 <> 0.
Proof.
  apply (proj1 (valuation_loop_correct 5 54)).
  - lia.
  - vm_compute. reflexivity.
Defined.

(** X10.  [check_determinant_constraint] never returns [True]: whatever
    [k], the valuation it computes is never negative, so with four or more
    tests allowed per determinant the search ends and returns [False]. *)
Theorem check_determinant_constraint_false (fuel : nat) (k : Z) :
  Verify3adic.check_determinant_constraint fuel k <> Some true
  /\ ((4 <= fuel)%nat ->
      Verify3adic.check_determinant_constraint fuel k = Some false).
Proof.
  unfold Verify3adic.check_determinant_constraint. split.
  - apply anyM_never_true. intros m. apply inspect_matrix_never_true.
  - intros Hfuel. apply anyM_all_false. intros [[[a b] c] d] Hin.
    apply matrices_In in Hin. apply inspect_matrix_false.
    assert (H81 : 3 ^ 4 <= 3 ^ Z.of_nat fuel)
      by (apply Z.pow_le_mono_r; lia).
    change (3 ^ 4) with 81 in H81. nia.
Qed.

Lemma check_determinant_constraint_false_witness :
  Verify3adic.check_determinant_constraint 4 3 = Some false.
Proof.
  apply (proj2 (check_determinant_constraint_false 4 3)). lia.
Defined.

(** X11.  [check_3adic_constraint_enhanced] at the default tolerance, on an
    integer [k]: it accepts exactly the multiples of 3 (zero and the
    negative ones included); being 3 changes the message only. *)
Theorem check_3adic_constraint_enhanced_int (k : Z) :
  Verify3adic.check_3adic_constraint_enhanced k tol_default =
  if k =? 3 then
    (true, "Both 3-adic and Ginzburg constraints satisfied"%string)
  else if k mod 3 =? 0 then
    (true, "3-adic satisfied, Ginzburg enhancement supports k=3"%string)
  else
    (false, "Failed basic 3-adic constraint"%string).
Proof.
  unfold Verify3adic.check_3adic_constraint_enhanced.
  destruct (Z.eqb_spec k 3) as [-> | Hk]; [reflexivity |].
  rewrite andb_false_r. rewrite !andb_false_r.
  pose proof (Z.mod_pos_bound k 3 ltac:(lia)) as Hr.
  assert (Hc : k mod 3 = 0 \/ k mod 3 = 1 \/ k mod 3 = 2) by lia.
  destruct Hc as [-> | [-> | ->]]; reflexivity.
Qed.

(** ** The summary of the validation suite *)

Section Summary.

Import ValidateAll.

Lemma prefix_append (a b s : String.string) :
  String.prefix (String.append a b) s = true -> String.prefix a s = true.
Proof.
  revert s. induction a as [|c a IH]; intros s H; [now destruct s |].
  destruct s as [|c' s]; [discriminate H |].
  cbn [String.append String.prefix] in *.
  destruct (Ascii.ascii_dec c c'); [now apply IH | discriminate H].
Qed.

Lemma contains_cons (pat : String.string) (c : Ascii.ascii) (s : String.string) :
  contains pat (String.String c s) =
  String.prefix pat (String.String c s) || contains pat s.
Proof.
  unfold contains. cbn [String.index].
  destruct (String.prefix pat (String.String c s)); [reflexivity |].
  now destruct (String.index 0 pat s).
Qed.

(** A description that mentions Path III mentions Path II. *)
Lemma contains_path3_path2 (desc : String.string) :
  contains "Path III"%string desc = true ->
  contains "Path II"%string desc = true.
Proof.
  induction desc as [|c desc IH]; [discriminate |].
  rewrite !contains_cons. intros H.
  apply orb_true_iff in H. apply orb_true_iff.
  destruct H as [H | H]; [left | right; now apply IH].
  now apply (prefix_append "Path II"%string "I"%string).
Qed.

End Summary.

(** X12.  In the summary of [validate_all.py] the results counted for
    Path II include those of Path III, since "Path II" occurs in every
    description that contains "Path III": a failed Path III entry makes
    [all(path2_results)] false, and [all(path2_results)] implies
    [all(path3_results)]. *)
Theorem path2_results_include_path3 (results : list (String.string * bool)) :
  (forall desc,
      In (desc, false) results ->
      ValidateAll.contains "Path III"%string desc = true ->
      ValidateAll.all (ValidateAll.path2_results results) = false)
  /\ (ValidateAll.all (ValidateAll.path2_results results) = true ->
      ValidateAll.all (ValidateAll.path3_results results) = true).
Proof.
  unfold ValidateAll.all, ValidateAll.path2_results, ValidateAll.path3_results.
  split.
  - intros desc Hin H3.
    apply not_true_is_false. intros Hall.
    rewrite forallb_forall in Hall.
    assert (Hf : In false
      (map snd (filter
         (fun dr => ValidateAll.contains "Path II"%string (fst dr)) results))).
    { apply in_map_iff. exists (desc, false). split; [reflexivity |].
      apply filter_In. split; [exact Hin |].
      now apply contains_path3_path2. }
    now apply Hall in Hf.
  - intros Hall. rewrite forallb_forall in *.
    intros b Hb. apply Hall.
    apply in_map_iff in Hb. destruct Hb as [[desc b'] [E Hin]].
    apply filter_In in Hin. destruct Hin as [Hin H3].
    apply in_map_iff. exists (desc, b'). split; [exact E |].
    apply filter_In. split; [exact Hin |].
    now apply contains_path3_path2.
Qed.

Lemma path2_results_include_path3_witness :
  ValidateAll.all (ValidateAll.path2_results
    [("Path II: Analytical Action Minimization"%string, true);
     ("Path III: RG Spectral Stability Analysis"%string, false)]) = false.
Proof.
  apply (proj1 (path2_results_include_path3 _)
           "Path III: RG Spectral Stability Analysis"%string).
  - right. left. reflexivity.
  - vm_compute. reflexivity.
Defined.

(** ** The unique lift of a regular root *)

(** C6.  Non-degenerate uniqueness: for a prime [p], if [s] is a root of
    level 1 with [f'(s) mod p <> 0], then at each level [i] from 2 to [n]
    exactly one residue [r] of the working list is congruent to [s] modulo
    [p]; it is a root of [f] modulo [p^i] below [p^i], and the only such
    root congruent to [s]: the Hensel lift of [s]. *)
Theorem regular_root_lifts_uniquely (f : poly) (p n s : Z) :
  Z.prime p -> 1 <= n ->
  In s (scan f p) -> subs (diff f) s mod p <> 0 ->
  forall i, 2 <= i <= n ->
  exists w r,
    working f p i = Some w
    /\ filter (fun r' => r' mod p =? s) w = [r]
    /\ length (filter (fun r' => r' mod p =? s) w) = 1%nat
    /\ In r w /\ r mod p = s
    /\ subs f r mod p ^ i = 0 /\ 0 <= r < p ^ i
    /\ forall r', 0 <= r' < p ^ i -> subs f r' mod p ^ i = 0 ->
                  r' mod p = s -> r' = r.
Proof.
  intros Hp Hn Hs Hd i Hi. apply scan_In in Hs. destruct Hs as [Hrange Hs].
  destruct (working_count_nat f p Hp s (Z.to_nat (i - 1)) Hs Hd) as [w [Hw Hc]].
  replace (1 + Z.of_nat (Z.to_nat (i - 1))) with i in Hw by lia.
  destruct (working_inv f p Hp i) as [w' [Hw' [Hall _]]]; [lia |].
  rewrite Hw in Hw'. injection Hw' as <-.
  unfold count_mod in Hc. rewrite (Z.mod_small s p) in Hc by exact Hrange.
  destruct (filter (fun r' => r' mod p =? s) w) as [|r [|r2 l]] eqn:E;
    try discriminate Hc.
  pose proof (proj1 (filter_In (fun r' => r' mod p =? s) r w)) as Hr.
  rewrite E in Hr. destruct (Hr (or_introl eq_refl)) as [Hin Hmod].
  clear Hr. apply Z.eqb_eq in Hmod.
  rewrite Forall_forall in Hall. destruct (Hall r Hin) as [Hz Hlt].
  exists w, r. rewrite E.
  split; [exact Hw |]. split; [reflexivity |]. split; [reflexivity |].
  split; [exact Hin |]. split; [exact Hmod |]. split; [exact Hz |].
  split; [exact Hlt |].
  intros r' Hr' Hz' Hmod'.
  assert (Hd' : subs (diff f) r' mod p <> 0).
  { rewrite (subs_cong (diff f) r' s); trivial.
    rewrite Hmod'. symmetry. now apply Z.mod_small. }
  destruct (working_complete f p i r' Hp ltac:(lia) Hr' Hz' Hd') as [w' [Hw' Hin']].
  rewrite Hw in Hw'. injection Hw' as <-.
  pose proof (proj2 (filter_In (fun r' => r' mod p =? s) r' w)) as Hf.
  rewrite E in Hf.
  destruct (Hf (conj Hin' (proj2 (Z.eqb_eq _ _) Hmod'))) as [<- | []].
  reflexivity.
Qed.

Lemma regular_root_lifts_uniquely_witness :
  Z.prime 3 /\ 1 <= 3 /\ In 2 (scan x2_minus_1 3)
  /\ subs (diff x2_minus_1) 2 mod 3 <> 0 /\ 2 <= 3 <= 3
  /\ exists w r,
       working x2_minus_1 3 3 = Some w
       /\ filter (fun r' => r' mod 3 =? 2) w = [r]
       /\ length (filter (fun r' => r' mod 3 =? 2) w) = 1%nat
       /\ In r w /\ r mod 3 = 2
       /\ subs x2_minus_1 r mod 3 ^ 3 = 0 /\ 0 <= r < 3 ^ 3
       /\ forall r', 0 <= r' < 3 ^ 3 -> subs x2_minus_1 r' mod 3 ^ 3 = 0 ->
                     r' mod 3 = 2 -> r' = r.
Proof.
  assert (Hin : In 2 (scan x2_minus_1 3)) by (vm_compute; tauto).
  assert (Hd : subs (diff x2_minus_1) 2 mod 3 <> 0) by (vm_compute; discriminate).
  split; [exact Z.prime_3 |]. split; [lia |]. split; [exact Hin |].
  split; [exact Hd |]. split; [lia |].
  apply (regular_root_lifts_uniquely x2_minus_1 3 3 2 Z.prime_3); trivial; lia.
Defined.

(** ** The run on sympy numbers and the run on integers *)

Section SymRun.

Variable f : poly.
Variable p : Z.










End SymRun.




